(** * DockerMasteryApp backend ([backend/server.js]): a shallow embedding

    The Express application of [backend/server.js] is modelled as a function
    from a request and a world to a response and a world.  The world holds
    what the handlers can observe or change: the wall clock, the [users]
    table of the relational store, the key space of the cache store, the
    counters of the rate limiter, the logger output, and the outcome that
    the environment gives to each kind of store operation.

    Conventions of the model:
    - a request is served at one instant: the clock does not move between
      the store calls of one handler, and requests do not interleave;
    - request paths are normalised (lower case, no query string, no
      trailing slash); methods HEAD and OPTIONS are not modelled;
    - the header, compression and access-log middleware (helmet, cors,
      compression, morgan) change neither status nor body and are left out;
    - JavaScript strings are byte strings; JSON numbers are integers. *)

From Stdlib Require Import ZArith Ascii String List Lia DecimalString DecimalPos DecimalN DecimalZ.
From stdpp Require Import base option gmap strings list sorting.

Local Open Scope string_scope.
Local Open Scope Z_scope.

(** ** JSON values, [JSON.stringify] and [JSON.parse]

    Numbers are integers (printed in decimal, as JavaScript prints the
    integers it represents exactly); a text with a fraction or an exponent is
    not read.  An object keeps its members in the order of the text, which is
    what JavaScript does for the keys used here (distinct, and none that
    looks like an array index). *)

Module Json.

#[local] Unset Elimination Schemes.
Inductive json : Type :=
| JNull
| JBool (b : bool)
| JNum (n : Z)
| JStr (s : string)
| JArr (elems : list json)
| JObj (members : list (string * json)).
#[local] Set Elimination Schemes.

Definition dquote : ascii := "034".

(** Two lower-case hexadecimal digits of a byte, as in [\u00xx]. *)
Definition hex_digit (n : N) : ascii :=
  if (n <? 10)%N then ascii_of_N (48 + n) else ascii_of_N (87 + n).

Definition hex2 (c : ascii) : string :=
  let n := N_of_ascii c in
  String (hex_digit (n / 16)) (String (hex_digit (n mod 16)) EmptyString).

(** The escape that [JSON.stringify] writes for one character. *)
Definition escape_char (c : ascii) : string :=
  if Ascii.eqb c dquote then String "\" (String dquote EmptyString)
  else if Ascii.eqb c "\" then "\\"
  else if Ascii.eqb c "008" then "\b"
  else if Ascii.eqb c "012" then "\f"
  else if Ascii.eqb c "010" then "\n"
  else if Ascii.eqb c "013" then "\r"
  else if Ascii.eqb c "009" then "\t"
  else if (N_of_ascii c <? 32)%N then "\u00" +:+ hex2 c
  else String c EmptyString.

Fixpoint escape (s : string) : string :=
  match s with
  | EmptyString => EmptyString
  | String c r => escape_char c +:+ escape r
  end.

Definition quote (s : string) : string :=
  String dquote (escape s +:+ String dquote EmptyString).

Definition string_of_Z (n : Z) : string := NilEmpty.string_of_int (Z.to_int n).

(** Items separated by commas, then the closing bracket. *)
Fixpoint join_close (close : string) (l : list string) : string :=
  match l with
  | [] => close
  | [x] => x +:+ close
  | x :: l' => x +:+ "," +:+ join_close close l'
  end.

Fixpoint JSON_stringify (v : json) : string :=
  match v with
  | JNull => "null"
  | JBool true => "true"
  | JBool false => "false"
  | JNum n => string_of_Z n
  | JStr s => quote s
  | JArr l => "[" +:+ join_close "]" (List.map JSON_stringify l)
  | JObj l =>
      "{" +:+ join_close "}"
        (List.map (fun kv => quote (fst kv) +:+ ":" +:+ JSON_stringify (snd kv)) l)
  end.

(** *** Parsing *)

Definition is_ws (c : ascii) : bool :=
  Ascii.eqb c " " || Ascii.eqb c "009" || Ascii.eqb c "010" || Ascii.eqb c "013".

Fixpoint skip_ws (s : string) : string :=
  match s with
  | String c r => if is_ws c then skip_ws r else s
  | EmptyString => s
  end.

Definition hex_val (c : ascii) : option N :=
  let n := N_of_ascii c in
  if (48 <=? n)%N && (n <=? 57)%N then Some (n - 48)%N
  else if (97 <=? n)%N && (n <=? 102)%N then Some (n - 87)%N
  else if (65 <=? n)%N && (n <=? 70)%N then Some (n - 55)%N
  else None.

(** UTF-8 bytes of a code point of the basic plane (surrogate pairs are not
    combined). *)
Definition utf8 (cp : N) : string :=
  if (cp <? 128)%N then String (ascii_of_N cp) EmptyString
  else if (cp <? 2048)%N then
    String (ascii_of_N (192 + cp / 64)) (String (ascii_of_N (128 + cp mod 64)) EmptyString)
  else
    String (ascii_of_N (224 + cp / 4096))
      (String (ascii_of_N (128 + (cp / 64) mod 64))
         (String (ascii_of_N (128 + cp mod 64)) EmptyString)).

Definition unescape (c : ascii) : option ascii :=
  if Ascii.eqb c dquote then Some dquote
  else if Ascii.eqb c "\" then Some "\"%char
  else if Ascii.eqb c "/" then Some "/"%char
  else if Ascii.eqb c "b" then Some "008"%char
  else if Ascii.eqb c "f" then Some "012"%char
  else if Ascii.eqb c "n" then Some "010"%char
  else if Ascii.eqb c "r" then Some "013"%char
  else if Ascii.eqb c "t" then Some "009"%char
  else None.

(** The characters of a string literal, after its opening quote. *)
Fixpoint parse_chars (s : string) : option (string * string) :=
  match s with
  | EmptyString => None
  | String c r =>
      if Ascii.eqb c dquote then Some (EmptyString, r)
      else if Ascii.eqb c "\" then
        match r with
        | String "u" (String h1 (String h2 (String h3 (String h4 r')))) =>
            match hex_val h1, hex_val h2, hex_val h3, hex_val h4 with
            | Some a, Some b, Some c', Some d =>
                match parse_chars r' with
                | Some (t, rest) =>
                    Some (utf8 (((a * 16 + b) * 16 + c') * 16 + d)%N +:+ t, rest)
                | None => None
                end
            | _, _, _, _ => None
            end
        | String e r' =>
            match unescape e with
            | Some c' =>
                match parse_chars r' with
                | Some (t, rest) => Some (String c' t, rest)
                | None => None
                end
            | None => None
            end
        | EmptyString => None
        end
      else if (N_of_ascii c <? 32)%N then None
      else
        match parse_chars r with
        | Some (t, rest) => Some (String c t, rest)
        | None => None
        end
  end.

Definition digit_of_char (c : ascii) : option (Decimal.uint -> Decimal.uint) :=
  if Ascii.eqb c "0" then Some Decimal.D0
  else if Ascii.eqb c "1" then Some Decimal.D1
  else if Ascii.eqb c "2" then Some Decimal.D2
  else if Ascii.eqb c "3" then Some Decimal.D3
  else if Ascii.eqb c "4" then Some Decimal.D4
  else if Ascii.eqb c "5" then Some Decimal.D5
  else if Ascii.eqb c "6" then Some Decimal.D6
  else if Ascii.eqb c "7" then Some Decimal.D7
  else if Ascii.eqb c "8" then Some Decimal.D8
  else if Ascii.eqb c "9" then Some Decimal.D9
  else None.

Definition is_digit (c : ascii) : bool :=
  match digit_of_char c with Some _ => true | None => false end.

Fixpoint parse_digits (s : string) : Decimal.uint * string :=
  match s with
  | EmptyString => (Decimal.Nil, s)
  | String c r =>
      match digit_of_char c with
      | Some d => let '(u, rest) := parse_digits r in (d u, rest)
      | None => (Decimal.Nil, s)
      end
  end.

(** An integer literal without sign: no empty literal, no leading zero, and
    no fraction or exponent (those are outside the model). *)
Definition parse_nat (s : string) : option (Decimal.uint * string) :=
  let '(u, rest) := parse_digits s in
  let tail_ok :=
    match rest with
    | String c _ => negb (Ascii.eqb c "." || Ascii.eqb c "e" || Ascii.eqb c "E")
    | EmptyString => true
    end in
  match u with
  | Decimal.Nil => None
  | Decimal.D0 Decimal.Nil => if tail_ok then Some (u, rest) else None
  | Decimal.D0 _ => None
  | _ => if tail_ok then Some (u, rest) else None
  end.

(** The rest of [s] after the literal [lit], if [s] starts with it. *)
Fixpoint strip_prefix (lit s : string) : option string :=
  match lit with
  | EmptyString => Some s
  | String a lit' =>
      match s with
      | String b s' => if Ascii.eqb a b then strip_prefix lit' s' else None
      | EmptyString => None
      end
  end.

Definition expect (lit : string) (v : json) (s : string) : option (json * string) :=
  match strip_prefix lit s with
  | Some rest => Some (v, rest)
  | None => None
  end.

(** The rest of [s] after the character [c], if [s] starts with it. *)
Definition peek (c : ascii) (s : string) : option string :=
  match s with
  | String c' r => if Ascii.eqb c c' then Some r else None
  | EmptyString => None
  end.

Fixpoint parse_value (fuel : nat) (s : string) : option (json * string) :=
  match fuel with
  | O => None
  | S fuel =>
      match skip_ws s with
      | EmptyString => None
      | String c r =>
          if Ascii.eqb c "n" then expect "ull" JNull r
          else if Ascii.eqb c "t" then expect "rue" (JBool true) r
          else if Ascii.eqb c "f" then expect "alse" (JBool false) r
          else if Ascii.eqb c dquote then
            match parse_chars r with
            | Some (t, rest) => Some (JStr t, rest)
            | None => None
            end
          else if Ascii.eqb c "[" then
            match peek "]" (skip_ws r) with
            | Some rest => Some (JArr [], rest)
            | None =>
                match parse_elems fuel r with
                | Some (l, rest) => Some (JArr l, rest)
                | None => None
                end
            end
          else if Ascii.eqb c "{" then
            match peek "}" (skip_ws r) with
            | Some rest => Some (JObj [], rest)
            | None =>
                match parse_members fuel r with
                | Some (l, rest) => Some (JObj l, rest)
                | None => None
                end
            end
          else if Ascii.eqb c "-" then
            match parse_nat r with
            | Some (u, rest) => Some (JNum (Z.of_int (Decimal.Neg u)), rest)
            | None => None
            end
          else
            match parse_nat (String c r) with
            | Some (u, rest) => Some (JNum (Z.of_int (Decimal.Pos u)), rest)
            | None => None
            end
      end
  end
with parse_elems (fuel : nat) (s : string) : option (list json * string) :=
  match fuel with
  | O => None
  | S fuel =>
      match parse_value fuel s with
      | Some (v, r) =>
          match peek "," (skip_ws r) with
          | Some r' =>
              match parse_elems fuel r' with
              | Some (l, rest) => Some (v :: l, rest)
              | None => None
              end
          | None =>
              match peek "]" (skip_ws r) with
              | Some rest => Some ([v], rest)
              | None => None
              end
          end
      | None => None
      end
  end
with parse_members (fuel : nat) (s : string) : option (list (string * json) * string) :=
  match fuel with
  | O => None
  | S fuel =>
      match peek dquote (skip_ws s) with
      | Some r =>
          match parse_chars r with
          | Some (k, r1) =>
              match peek ":" (skip_ws r1) with
              | Some r2 =>
                  match parse_value fuel r2 with
                  | Some (v, r3) =>
                      match peek "," (skip_ws r3) with
                      | Some r4 =>
                          match parse_members fuel r4 with
                          | Some (l, rest) => Some ((k, v) :: l, rest)
                          | None => None
                          end
                      | None =>
                          match peek "}" (skip_ws r3) with
                          | Some rest => Some ([(k, v)], rest)
                          | None => None
                          end
                      end
                  | None => None
                  end
              | None => None
              end
          | None => None
          end
      | None => None
      end
  end.

(** [JSON.parse]: one value, with nothing but white space after it. *)
Definition JSON_parse (s : string) : option json :=
  match parse_value (S (String.length s)) s with
  | Some (v, rest) =>
      match skip_ws rest with
      | EmptyString => Some v
      | _ => None
      end
  | None => None
  end.

End Json.

Import Json.

(** ** [new Date().toISOString()] *)

Module Clock.

(** Proleptic Gregorian date of a day number counted from 1970-01-01. *)
Definition civil_from_days (z : Z) : Z * Z * Z :=
  let z := z + 719468 in
  let era := z / 146097 in
  let doe := z - era * 146097 in
  let yoe := (doe - doe / 1460 + doe / 36524 - doe / 146096) / 365 in
  let doy := doe - (365 * yoe + yoe / 4 - yoe / 100) in
  let mp := (5 * doy + 2) / 153 in
  let d := doy - (153 * mp + 2) / 5 + 1 in
  let m := if mp <? 10 then mp + 3 else mp - 9 in
  let y := yoe + era * 400 in
  (if m <=? 2 then y + 1 else y, m, d).

(** The [w] low decimal digits of [n], most significant first. *)
Fixpoint pad (w : nat) (n : Z) (acc : string) : string :=
  match w with
  | O => acc
  | S w' => pad w' (n / 10) (String (ascii_of_N (48 + Z.to_N (n mod 10))) acc)
  end.

Definition year_string (y : Z) : string :=
  if (0 <=? y) && (y <=? 9999) then pad 4 y ""
  else if y <? 0 then "-" +:+ pad 6 (- y) ""
  else "+" +:+ pad 6 y "".

(** [new Date(t).toISOString()] for [t] milliseconds since the epoch. *)
Definition toISOString (t : Z) : string :=
  let '(y, m, d) := civil_from_days (t / 86400000) in
  let ms := t mod 86400000 in
  year_string y +:+ "-" +:+ pad 2 m "" +:+ "-" +:+ pad 2 d "" +:+ "T" +:+
  pad 2 (ms / 3600000) "" +:+ ":" +:+ pad 2 (ms / 60000 mod 60) "" +:+ ":" +:+
  pad 2 (ms / 1000 mod 60) "" +:+ "." +:+ pad 3 (ms mod 1000) "" +:+ "Z".

End Clock.

(** ** The world of the server *)

(** The kinds of call that the handlers make to the two stores:
    [pool.query], [redisClient.ping], [.get], [.setEx] and [.del]. *)
Inductive Op : Type := PgQuery | RedisPing | RedisGet | RedisSetEx | RedisDel.

(** A row of table [users] (migration [20250709085850_super_jungle.sql]);
    the two timestamps are milliseconds since the epoch. *)
Record Row : Type := {
  row_id : Z;
  row_name : string;
  row_email : string;
  row_created_at : Z;
  row_updated_at : Z
}.

Record World : Type := {
  (** wall clock, in milliseconds since the epoch *)
  now : Z;
  (** what the environment answers to a store call of each kind while this
      request is served: [None] lets it through, [Some m] makes the driver
      reject it with message [m] *)
  outcome : Op -> option string;
  (** table [users], in insertion order, and its [SERIAL] sequence *)
  users : list Row;
  users_id_seq : Z;
  (** key space of the cache store: value and expiry instant *)
  redis : gmap string (string * Z);
  (** counters of the rate limiter: window start and count per identity *)
  hits : gmap string (Z * Z);
  (** source of [Math.random()]: the draws, and how many were taken *)
  random : nat -> Z;
  draws : nat;
  (** what [logger.error] wrote, and the store calls issued, oldest first *)
  log : list (string * string);
  calls : list Op
}.

Definition set_users (f : list Row -> list Row) (s : Z -> Z) (w : World) : World :=
  {| now := now w; outcome := outcome w; users := f (users w);
     users_id_seq := s (users_id_seq w); redis := redis w; hits := hits w;
     random := random w; draws := draws w; log := log w; calls := calls w |}.

Definition set_redis (f : gmap string (string * Z) -> gmap string (string * Z))
    (w : World) : World :=
  {| now := now w; outcome := outcome w; users := users w;
     users_id_seq := users_id_seq w; redis := f (redis w); hits := hits w;
     random := random w; draws := draws w; log := log w; calls := calls w |}.

Definition set_hits (f : gmap string (Z * Z) -> gmap string (Z * Z)) (w : World) : World :=
  {| now := now w; outcome := outcome w; users := users w;
     users_id_seq := users_id_seq w; redis := redis w; hits := f (hits w);
     random := random w; draws := draws w; log := log w; calls := calls w |}.

Definition set_draws (n : nat) (w : World) : World :=
  {| now := now w; outcome := outcome w; users := users w;
     users_id_seq := users_id_seq w; redis := redis w; hits := hits w;
     random := random w; draws := n; log := log w; calls := calls w |}.

Definition add_log (entry : string * string) (w : World) : World :=
  {| now := now w; outcome := outcome w; users := users w;
     users_id_seq := users_id_seq w; redis := redis w; hits := hits w;
     random := random w; draws := draws w; log := log w ++ [entry]; calls := calls w |}.

Definition add_call (op : Op) (w : World) : World :=
  {| now := now w; outcome := outcome w; users := users w;
     users_id_seq := users_id_seq w; redis := redis w; hits := hits w;
     random := random w; draws := draws w; log := log w; calls := calls w ++ [op] |}.

(** The environment between two requests: the clock and the store outcomes
    move, everything the server holds stays. *)
Definition at_time (t : Z) (o : Op -> option string) (w : World) : World :=
  {| now := t; outcome := o; users := users w;
     users_id_seq := users_id_seq w; redis := redis w; hits := hits w;
     random := random w; draws := draws w; log := log w; calls := calls w |}.

(** ** Awaited calls that may throw *)

Inductive Result (A : Type) : Type :=
| Ok (a : A)
| Throw (message : string).
Arguments Ok {A} a.
Arguments Throw {A} message.

Definition M (A : Type) : Type := World -> Result A * World.

#[export] Instance M_ret : MRet M := fun A a w => (Ok a, w).
#[export] Instance M_bind : MBind M := fun A B f c w =>
  match c w with
  | (Ok a, w') => f a w'
  | (Throw e, w') => (Throw e, w')
  end.

Definition throw {A : Type} (e : string) : M A := fun w => (Throw e, w).
Definition get_world : M World := fun w => (Ok w, w).
Definition modify (f : World -> World) : M unit := fun w => (Ok tt, f w).

(** One call to a store: it is recorded, and the environment decides whether
    the driver rejects it. *)
Definition call (op : Op) : M unit := fun w =>
  match outcome w op with
  | Some e => (Throw e, add_call op w)
  | None => (Ok tt, add_call op w)
  end.

(** [try { body } catch (error) { handler }]. *)
Definition try_catch {A : Type} (body : M A) (handler : string -> M A) : M A := fun w =>
  match body w with
  | (Ok a, w') => (Ok a, w')
  | (Throw e, w') => handler e w'
  end.

Definition logger_error (label : string) (e : string) : M unit :=
  modify (add_log (label, e)).

Definition Date_now_toISOString : M string :=
  w ← get_world; mret (Clock.toISOString (now w)).

(** ** Store adapters *)

(** [pool.query] of a statement whose rows the caller does not read
    (['SELECT 1'], and the probe of [/api/status]). *)
Definition pool_query_probe : M unit := call PgQuery.

(** Rows by [created_at], newest first; rows of the same instant in the
    order they were inserted. *)
Fixpoint insert_desc (r : Row) (l : list Row) : list Row :=
  match l with
  | [] => [r]
  | x :: l' =>
      if row_created_at x <? row_created_at r then r :: l else x :: insert_desc r l'
  end.

Definition order_by_created_at_desc (l : list Row) : list Row :=
  fold_left (fun acc r => insert_desc r acc) l [].

(** [SELECT id, name, email, created_at FROM users ORDER BY created_at DESC
    LIMIT 10]. *)
Definition pool_query_select_users : M (list Row) :=
  call PgQuery;;
  w ← get_world;
  mret (take 10 (order_by_created_at_desc (users w))).

Definition unique_violation : string :=
  "duplicate key value violates unique constraint " +:+ quote "users_email_key".

(** [INSERT INTO users (name, email) VALUES ($1, $2) RETURNING *]: both
    columns are [VARCHAR(255)], [email] is [UNIQUE], [id] is [SERIAL], and
    the two timestamps default to the current time.  The sequence is advanced
    before the uniqueness check, so a rejected duplicate leaves a gap. *)
Definition pool_query_insert_user (name email : string) : M Row :=
  call PgQuery;;
  w ← get_world;
  if (255 <? String.length name)%nat || (255 <? String.length email)%nat
  then throw "value too long for type character varying(255)"
  else
    modify (set_users (fun l => l) (fun s => s + 1));;
    if existsb (fun r => String.eqb (row_email r) email) (users w)
    then throw unique_violation
    else
      let row := {| row_id := users_id_seq w; row_name := name; row_email := email;
                    row_created_at := now w; row_updated_at := now w |} in
      modify (set_users (fun l => (l ++ [row])%list) (fun s => s));;
      mret row.

(** The value under [key], unless it has expired: a key is gone once the
    clock has passed its expiry instant. *)
Definition live (w : World) (key : string) : option string :=
  match redis w !! key with
  | Some (v, expiry) => if now w <=? expiry then Some v else None
  | None => None
  end.

Definition redis_get (key : string) : M (option string) :=
  call RedisGet;;
  w ← get_world;
  mret (live w key).

Definition redis_setEx (key : string) (seconds : Z) (value : string) : M unit :=
  call RedisSetEx;;
  w ← get_world;
  modify (set_redis (insert key (value, now w + seconds * 1000))).

Definition redis_del (key : string) : M unit :=
  call RedisDel;;
  modify (set_redis (delete key)).

Definition redis_ping : M unit := call RedisPing.

(** ** [Math.random()] *)

(** A draw is a multiple of 2^-53 below 1; the world gives its numerator. *)
Definition Math_random : M Z := fun w =>
  (Ok (random w (draws w) mod 2 ^ 53), set_draws (S (draws w)) w).

(** [Math.floor(r * n)] for the draw [r = k / 2^53] and a positive integer
    [n]: the product is rounded to 53 significant bits, ties to even, before
    the floor is taken. *)
Definition Math_floor_times (k n : Z) : Z :=
  let p := k * n in
  let bits := Z.log2 p + 1 in
  if bits <=? 53 then p / 2 ^ 53
  else
    let shift := bits - 53 in
    let q := p / 2 ^ shift in
    let rem := p mod 2 ^ shift in
    let half := 2 ^ (shift - 1) in
    let q' := if (half <? rem) || ((rem =? half) && Z.odd q) then q + 1 else q in
    (q' * 2 ^ shift) / 2 ^ 53.

(** ** Requests and responses *)

Inductive Method : Type := GET | POST | PUT | DELETE.

(** [req.body] after [express.json()]: the two properties that the server
    reads; [None] is a property that is absent or [null].  Values that are
    not strings are outside the model. *)
Record Body : Type := { body_name : option string; body_email : option string }.

Record Request : Type := {
  method : Method;
  path : string;
  ip : string;
  body : Body
}.

Record Response : Type := { status : Z; payload : string }.

(** [res.status(code).json(v)]. *)
Definition res_json (code : Z) (v : json) : Response :=
  {| status := code; payload := JSON_stringify v |}.

(** JavaScript truthiness of a value that is [null], [undefined] or a
    string. *)
Definition truthy (v : option string) : bool :=
  match v with
  | Some s => negb (String.eqb s "")
  | None => false
  end.

Definition JSON_parse_or_throw (s : string) : M json :=
  match JSON_parse s with
  | Some v => mret v
  | None => throw "Unexpected token in JSON"
  end.

Definition internal_server_error : Response :=
  res_json 500 (JObj [("error", JStr "Internal server error")]).

(** ** Rate limiting *)

(** The options given to [rateLimit]. *)
Module Limit.
Definition windowMs : Z := 15 * 60 * 1000.
Definition max : Z := 100.
Definition message : string := "Too many requests from this IP, please try again later.".
End Limit.

(** Modelled from the spec: the counting of [express-rate-limit], which is
    not part of the repository.  Section 4.4: a fixed-window counter per
    client identity; a request that finds no window, or an expired one,
    starts a new window with count 1 and passes; any other request
    increments the count and passes if the count is at most the limit.
    The window length, the limit and the message are those of
    [server.js]. *)
Definition limiter (identity : string) : World -> bool * World := fun w =>
  match hits w !! identity with
  | Some (windowStart, count) =>
      if now w <? windowStart + Limit.windowMs
      then (count + 1 <=? Limit.max, set_hits (insert identity (windowStart, count + 1)) w)
      else (true, set_hits (insert identity (now w, 1)) w)
  | None => (true, set_hits (insert identity (now w, 1)) w)
  end.

Definition too_many_requests : Response := {| status := 429; payload := Limit.message |}.

(** ** Route handlers *)

(** A handler under the error-handling middleware
    [app.use((err, req, res, next) => ...)], which answers for an error that
    escapes the handler.  The [catch] block of each handler answers itself,
    so nothing escapes (lemma [route_answers]). *)
Definition run (h : M Response) (w : World) : Response * World :=
  match h w with
  | (Ok r, w') => (r, w')
  | (Throw e, w') => (internal_server_error, add_log ("Unhandled error", e) w')
  end.

(** [app.get('/health', ...)]. *)
Definition health : M Response :=
  try_catch
    (pool_query_probe;;
     redis_ping;;
     timestamp ← Date_now_toISOString;
     mret (res_json 200
       (JObj [("status", JStr "healthy");
              ("timestamp", JStr timestamp);
              ("services", JObj [("database", JStr "connected");
                                 ("redis", JStr "connected");
                                 ("api", JStr "running")])])))
    (fun error =>
       logger_error "Health check failed" error;;
       timestamp ← Date_now_toISOString;
       mret (res_json 503
         (JObj [("status", JStr "unhealthy");
                ("timestamp", JStr timestamp);
                ("error", JStr error)]))).

Definition service (name status uptime : string) : json :=
  JObj [("name", JStr name); ("status", JStr status); ("uptime", JStr uptime)].

Definition statusData (timestamp : string) : json :=
  JObj [("services", JArr [service "Backend API" "healthy" "2h 34m";
                           service "Database" "healthy" "2h 34m";
                           service "Redis Cache" "healthy" "2h 34m"]);
        ("timestamp", JStr timestamp)].

(** [app.get('/api/status', ...)]. *)
Definition api_status : M Response :=
  try_catch
    (let cacheKey := "system:status" in
     cached ← redis_get cacheKey;
     if truthy cached then
       v ← JSON_parse_or_throw (default "" cached);
       mret (res_json 200 v)
     else
       pool_query_probe;;
       timestamp ← Date_now_toISOString;
       redis_setEx cacheKey 60 (JSON_stringify (statusData timestamp));;
       mret (res_json 200 (statusData timestamp)))
    (fun error =>
       logger_error "Status endpoint error" error;;
       mret internal_server_error).

Definition metricsData (activeUsers totalRequests averageResponseTime : Z)
    (timestamp : string) : json :=
  JObj [("activeUsers", JNum activeUsers);
        ("totalRequests", JNum totalRequests);
        ("averageResponseTime", JNum averageResponseTime);
        ("uptime", JStr "2h 34m");
        ("timestamp", JStr timestamp)].

(** The object literal [metrics] of [/api/metrics]. *)
Definition fresh_metrics : M json :=
  r1 ← Math_random;
  r2 ← Math_random;
  r3 ← Math_random;
  timestamp ← Date_now_toISOString;
  mret (metricsData (Math_floor_times r1 200 + 50)
                    (Math_floor_times r2 10000 + 5000)
                    (Math_floor_times r3 100 + 50)
                    timestamp).

(** [app.get('/api/metrics', ...)]. *)
Definition api_metrics : M Response :=
  try_catch
    (let cacheKey := "system:metrics" in
     cached ← redis_get cacheKey;
     if truthy cached then
       v ← JSON_parse_or_throw (default "" cached);
       mret (res_json 200 v)
     else
       metrics ← fresh_metrics;
       redis_setEx cacheKey 30 (JSON_stringify metrics);;
       mret (res_json 200 metrics))
    (fun error =>
       logger_error "Metrics endpoint error" error;;
       mret internal_server_error).

Definition listed_row (r : Row) : json :=
  JObj [("id", JNum (row_id r)); ("name", JStr (row_name r));
        ("email", JStr (row_email r));
        ("created_at", JStr (Clock.toISOString (row_created_at r)))].

Definition returned_row (r : Row) : json :=
  JObj [("id", JNum (row_id r)); ("name", JStr (row_name r));
        ("email", JStr (row_email r));
        ("created_at", JStr (Clock.toISOString (row_created_at r)));
        ("updated_at", JStr (Clock.toISOString (row_updated_at r)))].

(** [app.get('/api/users', ...)]. *)
Definition get_users : M Response :=
  try_catch
    (rows ← pool_query_select_users;
     mret (res_json 200 (JArr (List.map listed_row rows))))
    (fun error =>
       logger_error "Users endpoint error" error;;
       mret internal_server_error).

(** [app.post('/api/users', ...)]. *)
Definition post_users (req : Request) : M Response :=
  try_catch
    (let name := body_name (body req) in
     let email := body_email (body req) in
     if negb (truthy name) || negb (truthy email) then
       mret (res_json 400 (JObj [("error", JStr "Name and email are required")]))
     else
       row ← pool_query_insert_user (default "" name) (default "" email);
       redis_del "system:metrics";;
       mret (res_json 201 (returned_row row)))
    (fun error =>
       logger_error "Create user error" error;;
       mret internal_server_error).

(** [app.use('*', ...)]. *)
Definition not_found : M Response :=
  mret (res_json 404 (JObj [("error", JStr "Route not found")])).

(** ** The application *)

Definition route (req : Request) : M Response :=
  match method req with
  | GET =>
      if String.eqb (path req) "/health" then health
      else if String.eqb (path req) "/api/status" then api_status
      else if String.eqb (path req) "/api/metrics" then api_metrics
      else if String.eqb (path req) "/api/users" then get_users
      else not_found
  | POST =>
      if String.eqb (path req) "/api/users" then post_users req
      else not_found
  | _ => not_found
  end.

(** [app.use('/api/', limiter)]: the paths under the mount point. *)
Definition under_api (p : string) : bool :=
  String.eqb p "/api" || String.prefix "/api/" p.

Definition app (req : Request) (w : World) : Response * World :=
  if under_api (path req) then
    match limiter (ip req) w with
    | (true, w') => run (route req) w'
    | (false, w') => (too_many_requests, w')
    end
  else run (route req) w.

(** A request as the server meets it: the instant it arrives at and the
    store outcomes of that instant. *)
Record Arrival : Type := {
  arrives_at : Z;
  stores : Op -> option string;
  request : Request
}.

(** The server over a sequence of arrivals. *)
Fixpoint serve (l : list Arrival) (w : World) : list Response * World :=
  match l with
  | [] => ([], w)
  | a :: l' =>
      let '(r, w1) := app (request a) (at_time (arrives_at a) (stores a) w) in
      let '(rs, w2) := serve l' w1 in
      (r :: rs, w2)
  end.

(** * Vocabulary of the statements *)

(** ** Reading a JSON text back *)

(** What may follow a value inside a JSON text. *)
Definition delim (rest : string) : Prop :=
  match rest with
  | EmptyString => True
  | String c _ => c = ","%char \/ c = "]"%char \/ c = "}"%char \/ c = ":"%char
  end.

(** Fuel that [parse_value] needs to read a value back. *)
Fixpoint need (v : json) : nat :=
  match v with
  | JArr l => S (fold_right (fun x n => S (need x + n)) O l)
  | JObj l => S (fold_right (fun kv n => S (need (snd kv) + n)) O l)
  | _ => 1
  end.

Definition starts_value (s : string) : bool :=
  match s with
  | EmptyString => false
  | String c _ =>
      Ascii.eqb c "n" || Ascii.eqb c "t" || Ascii.eqb c "f" || Ascii.eqb c dquote ||
      Ascii.eqb c "[" || Ascii.eqb c "{" || Ascii.eqb c "-" || is_digit c
  end.

(** The property proved by induction on the value. *)
Definition reads_back (v : json) : Prop :=
  forall (fuel : nat) (rest : string),
    (need v <= fuel)%nat -> delim rest ->
    parse_value fuel (JSON_stringify v +:+ rest) = Some (v, rest).

Definition member_text (kv : string * json) : string :=
  quote (fst kv) +:+ ":" +:+ JSON_stringify (snd kv).

(** ** Responses and store calls of the handlers *)

Definition status_key : string := "system:status".

Definition metrics_key : string := "system:metrics".

(** What a handler adds to the record of store calls. *)
Definition issues (h : M Response) (w : World) (l : list Op) : Prop :=
  calls (snd (run h w)) = (calls w ++ l)%list.

Definition unhealthy (w : World) (e : string) : Response :=
  res_json 503 (JObj [("status", JStr "unhealthy");
                      ("timestamp", JStr (Clock.toISOString (now w)));
                      ("error", JStr e)]).

Definition healthy (w : World) : Response :=
  res_json 200 (JObj [("status", JStr "healthy");
                      ("timestamp", JStr (Clock.toISOString (now w)));
                      ("services", JObj [("database", JStr "connected");
                                         ("redis", JStr "connected");
                                         ("api", JStr "running")])]).

(** The probe of [/health] that fails first, with the driver's message. *)
Definition first_failing_probe (w : World) : option (Op * string) :=
  match outcome w PgQuery with
  | Some e => Some (PgQuery, e)
  | None =>
      match outcome w RedisPing with
      | Some e => Some (RedisPing, e)
      | None => None
      end
  end.

Definition fresh_status (w : World) : json := statusData (Clock.toISOString (now w)).

(** The metrics that a recomputation in world [w] produces. *)
Definition metrics_of (w : World) : json :=
  metricsData (Math_floor_times (random w (draws w) mod 2 ^ 53) 200 + 50)
              (Math_floor_times (random w (S (draws w)) mod 2 ^ 53) 10000 + 5000)
              (Math_floor_times (random w (S (S (draws w))) mod 2 ^ 53) 100 + 50)
              (Clock.toISOString (now w)).

(** The handler gives up on error [e]: it answers the generic 500, logs
    the error under its label, and leaves the cache as it was. *)
Definition fails_with (h : M Response) (label e : string) (w : World) : Prop :=
  fst (run h w) = internal_server_error /\
  redis (snd (run h w)) = redis w /\
  log (snd (run h w)) = (log w ++ [(label, e)])%list.

(** A cache call of the handler fails: the read or, after a miss, the write. *)
Definition cache_call_fails (key : string) (w : World) : Prop :=
  outcome w RedisGet <> None \/
  (truthy (live w key) = false /\ outcome w RedisSetEx <> None).

(** ** Creating a user *)

Definition new_row (w : World) (name email : string) : Row :=
  {| row_id := users_id_seq w; row_name := name; row_email := email;
     row_created_at := now w; row_updated_at := now w |}.

Definition taken (w : World) (email : string) : bool :=
  existsb (fun r => String.eqb (row_email r) email) (users w).

Definition too_long (name email : string) : bool :=
  (255 <? String.length name)%nat || (255 <? String.length email)%nat.

(** The body carries a name and an email that are not empty. *)
Definition well_formed (req : Request) (name email : string) : Prop :=
  body_name (body req) = Some name /\ body_email (body req) = Some email /\
  name <> "" /\ email <> "".

Definition after_insert (w : World) (name email : string) : World :=
  set_users (fun l => (l ++ [new_row w name email])%list) (fun s => s)
    (set_users (fun l => l) (fun s => s + 1) (add_call PgQuery w)).

(** ** Traffic through the limiter *)

(** The computation leaves the counters of the limiter alone. *)
Definition keeps_hits {A : Type} (c : M A) : Prop :=
  forall w, hits (snd (c w)) = hits w.

(** The computation never answers 429. *)
Definition not_429 (c : M Response) : Prop :=
  forall w, match c w with (Ok r, _) => status r <> 429 | (Throw _, _) => True end.

(** The computation always answers: no error escapes it. *)
Definition never_throws (c : M Response) : Prop :=
  forall w, exists r w', c w = (Ok r, w').

(** The arrival is a request of identity [i] to a path under [/api/]. *)
Definition counted (i : string) (a : Arrival) : bool :=
  under_api (path (request a)) && String.eqb (ip (request a)) i.

(** How many requests of [l] the limiter counts for identity [i]. *)
Fixpoint count (i : string) (l : list Arrival) : Z :=
  match l with
  | [] => 0
  | a :: l' => (if counted i a then 1 else 0) + count i l'
  end.

(** The server on one arrival. *)
Definition arrive (a : Arrival) (w : World) : Response * World :=
  app (request a) (at_time (arrives_at a) (stores a) w).

(** The identity has no window at instant [t], or one that is over. *)
Definition no_window (i : string) (w : World) (t : Z) : Prop :=
  match hits w !! i with
  | Some (s, _) => s + Limit.windowMs <= t
  | None => True
  end.

(** ** Listings, frames and the table *)

(** Rows from the newest to the oldest. *)
Definition newest_first (l : list Row) : Prop :=
  StronglySorted (fun x y => row_created_at y <= row_created_at x) l.

(** Every step of the computation stays inside the relation [R]. *)
Definition within (R : World -> World -> Prop) {A : Type} (c : M A) : Prop :=
  forall w, R w (snd (c w)).

(** Every answer of the computation satisfies [P]. *)
Definition yields (P : Response -> Prop) (c : M Response) : Prop :=
  forall w, match c w with (Ok r, _) => P r | (Throw _, _) => True end.

(** The constraints of table [users]: [email] is [UNIQUE], [id] is the
    primary key and comes from the sequence. *)
Definition table_ok (w : World) : Prop :=
  NoDup (row_email <$> users w) /\
  NoDup (row_id <$> users w) /\
  Forall (fun r => row_id r < users_id_seq w) (users w).

(** What one request can do to table [users]: nothing, burn a value of the
    sequence, or append one row with a fresh email and the next id. *)
Definition table_step (w w' : World) : Prop :=
  (users w' = users w /\
   (users_id_seq w' = users_id_seq w \/ users_id_seq w' = users_id_seq w + 1)) \/
  (exists name email,
     taken w email = false /\
     users w' = (users w ++ [{| row_id := users_id_seq w; row_name := name;
                                row_email := email; row_created_at := now w;
                                row_updated_at := now w |}])%list /\
     users_id_seq w' = users_id_seq w + 1).

(** The table and its sequence are as they were. *)
Definition same_table (w w' : World) : Prop :=
  users w' = users w /\ users_id_seq w' = users_id_seq w.

(** The cache holds under [k] what it held. *)
Definition same_key (k : string) (w w' : World) : Prop :=
  redis w' !! k = redis w !! k.

(** The logger and the clock are as they were. *)
Definition same_log (w w' : World) : Prop :=
  log w' = log w /\ now w' = now w.

(** A relation between worlds that the bookkeeping of the model (the record
    of store calls and the random draws) does not leave. *)
Class Frame (R : World -> World -> Prop) : Prop := {
  frame_refl : forall w, R w w;
  frame_trans : forall w1 w2 w3, R w1 w2 -> R w2 w3 -> R w1 w3;
  frame_call : forall op w, R w (add_call op w);
  frame_draws : forall n w, R w (set_draws n w)
}.

(** A relation between worlds that [logger.error] does not leave. *)
Class Logging (R : World -> World -> Prop) : Prop :=
  frame_log : forall e w, R w (add_log e w).

(** The handler logs one error when it answers 500 or 503, and nothing
    otherwise; its 500 is the generic one and its 503 that of [/health]. *)
Definition error_logged (h : M Response) : Prop :=
  forall w,
    let r := fst (run h w) in
    let w' := snd (run h w) in
    (status r <> 500 /\ status r <> 503 /\ log w' = log w) \/
    (exists label e,
       log w' = (log w ++ [(label, e)])%list /\
       (r = internal_server_error \/ r = unhealthy w e)).

(** ** Concrete worlds *)

Definition all_up : Op -> option string := fun _ => None.

(** The cache store cannot be reached. *)
Definition cache_down : Op -> option string := fun op =>
  match op with
  | PgQuery => None
  | _ => Some "connect ECONNREFUSED 127.0.0.1:6379"
  end.

(** The relational store cannot be reached. *)
Definition db_down : Op -> option string := fun op =>
  match op with
  | PgQuery => Some "connect ECONNREFUSED 127.0.0.1:5432"
  | _ => None
  end.

(** Both stores answer with the same driver message. *)
Definition dependency_down (which : Op) : Op -> option string := fun op =>
  match which, op with
  | PgQuery, PgQuery => Some "Connection terminated unexpectedly"
  | RedisPing, RedisPing => Some "Connection terminated unexpectedly"
  | _, _ => None
  end.

Definition sample (i : Z) (name email : string) : Row :=
  {| row_id := i; row_name := name; row_email := email;
     row_created_at := 1752051529000; row_updated_at := 1752051529000 |}.

(** The server after start-up on the database that the migration fills. *)
Definition boot : World :=
  {| now := 1752051530123;
     outcome := all_up;
     users := [sample 1 "John Doe" "john.doe@example.com";
               sample 2 "Jane Smith" "jane.smith@example.com";
               sample 3 "Bob Johnson" "bob.johnson@example.com";
               sample 4 "Alice Brown" "alice.brown@example.com";
               sample 5 "Charlie Wilson" "charlie.wilson@example.com"];
     users_id_seq := 6;
     redis := ∅;
     hits := ∅;
     random := fun n => 4503599627370496 + 1000003 * Z.of_nat n;
     draws := O;
     log := [];
     calls := [] |}.

Definition GET_ (p : string) (client : string) : Request :=
  {| method := GET; path := p; ip := client;
     body := {| body_name := None; body_email := None |} |}.

Definition POST_users (client : string) (name email : option string) : Request :=
  {| method := POST; path := "/api/users"; ip := client;
     body := {| body_name := name; body_email := email |} |}.

(** One client asking for the status again and again one second after the
    request that opened its window, and once more 15 minutes later. *)
Definition opening : Arrival :=
  {| arrives_at := 1752051530123; stores := all_up;
     request := GET_ "/api/status" "203.0.113.7" |}.

Definition repeated : Arrival :=
  {| arrives_at := 1752051531123; stores := all_up;
     request := GET_ "/api/status" "203.0.113.7" |}.

Definition later : Arrival :=
  {| arrives_at := 1752051530123 + 15 * 60 * 1000; stores := all_up;
     request := GET_ "/api/status" "203.0.113.7" |}.

(** * Properties *)

(** ** The clock and the random source on known values *)

Example toISOString_epoch : Clock.toISOString 0 = "1970-01-01T00:00:00.000Z".
Proof. reflexivity. Qed.

Example toISOString_leap_day : Clock.toISOString 951782400000 = "2000-02-29T00:00:00.000Z".
Proof. reflexivity. Qed.

Example toISOString_before_epoch : Clock.toISOString (-1) = "1969-12-31T23:59:59.999Z".
Proof. reflexivity. Qed.

Example toISOString_migration : Clock.toISOString 1752051530123 = "2025-07-09T08:58:50.123Z".
Proof. reflexivity. Qed.

Example Math_floor_times_top :
  Math_floor_times (2 ^ 53 - 1) 200 = 199 /\ Math_floor_times (2 ^ 53 - 1) 10000 = 9999 /\
  Math_floor_times (2 ^ 53 - 1) 100 = 99 /\ Math_floor_times 0 200 = 0.
Proof. repeat split; reflexivity. Qed.

(** ** [JSON.parse] inverts [JSON.stringify] *)

Module JsonFacts.

(** Induction on a value, with the elements of arrays and the members of
    objects covered by the induction hypothesis. *)
Lemma json_ind (P : json -> Prop) :
  P JNull ->
  (forall b, P (JBool b)) ->
  (forall n, P (JNum n)) ->
  (forall s, P (JStr s)) ->
  (forall l, Forall P l -> P (JArr l)) ->
  (forall l, Forall (fun kv => P (snd kv)) l -> P (JObj l)) ->
  forall v, P v.
Proof.
  intros HNull HBool HNum HStr HArr HObj.
  fix IH 1. intros [|b|n|s|l|l].
  - exact HNull.
  - apply HBool.
  - apply HNum.
  - apply HStr.
  - apply HArr. induction l as [|x l IHl]; constructor; [apply IH | exact IHl].
  - apply HObj. induction l as [|kv l IHl]; constructor; [apply IH | exact IHl].
Qed.

Lemma append_cons (x : ascii) (a b : string) : String x a +:+ b = String x (a +:+ b).
Proof. reflexivity. Qed.

Lemma append_nil (b : string) : EmptyString +:+ b = b.
Proof. reflexivity. Qed.

Lemma append_assoc (a b c : string) : (a +:+ b) +:+ c = a +:+ (b +:+ c).
Proof.
  induction a as [|x a IH]; [reflexivity |].
  rewrite !append_cons. f_equal. exact IH.
Qed.

Lemma append_nil_r (a : string) : a +:+ EmptyString = a.
Proof.
  induction a as [|x a IH]; [reflexivity |].
  rewrite append_cons. f_equal. exact IH.
Qed.

Lemma length_append (a b : string) :
  String.length (a +:+ b) = (String.length a + String.length b)%nat.
Proof.
  induction a as [|x a IH]; [reflexivity |].
  rewrite append_cons. simpl. f_equal. exact IH.
Qed.

(** One escaped character is read back as that character. *)
Lemma parse_chars_escape_char (c : ascii) (tl : string) :
  parse_chars (escape_char c +:+ tl) =
  match parse_chars tl with
  | Some (t, rest) => Some (String c t, rest)
  | None => None
  end.
Proof.
  destruct c as [[] [] [] [] [] [] [] []]; reflexivity.
Qed.

Lemma parse_chars_escape (s rest : string) :
  parse_chars (escape s +:+ String dquote rest) = Some (s, rest).
Proof.
  induction s as [|c s IH].
  - reflexivity.
  - change (escape (String c s)) with (escape_char c +:+ escape s).
    rewrite append_assoc, parse_chars_escape_char, IH. reflexivity.
Qed.

Lemma delim_no_digit (rest : string) : delim rest -> parse_digits rest = (Decimal.Nil, rest).
Proof.
  destruct rest as [|c r]; [reflexivity |].
  intros [-> | [-> | [-> | ->]]]; reflexivity.
Qed.

Lemma parse_digits_uint (d : Decimal.uint) (rest : string) :
  delim rest -> parse_digits (NilEmpty.string_of_uint d +:+ rest) = (d, rest).
Proof.
  intros Hd.
  induction d; simpl NilEmpty.string_of_uint; rewrite ?append_cons, ?append_nil;
    [apply delim_no_digit, Hd | simpl parse_digits; now rewrite IHd ..].
Qed.

(** The decimal digits of a positive number do not start with a zero. *)
Lemma to_uint_head (p : positive) :
  match Pos.to_uint p with
  | Decimal.Nil | Decimal.D0 _ => False
  | _ => True
  end.
Proof.
  pose proof (DecimalPos.Unsigned.to_of (Pos.to_uint p)) as H.
  rewrite DecimalPos.Unsigned.of_to in H. simpl in H.
  pose proof (DecimalPos.Unsigned.to_uint_nonzero p) as Hz.
  pose proof (DecimalFacts.unorm_nonnil (Pos.to_uint p)) as Hn.
  rewrite <- H in Hn.
  destruct (Pos.to_uint p) as [|u| | | | | | | | |] eqn:E; try exact I; try congruence.
  rewrite DecimalFacts.unorm_D0 in H.
  unfold Decimal.unorm in H.
  pose proof (DecimalFacts.nzhead_nonzero u) as Hh.
  destruct (Decimal.nzhead u) eqn:E'; congruence.
Qed.

Lemma parse_nat_pos (p : positive) (rest : string) :
  delim rest ->
  parse_nat (NilEmpty.string_of_uint (Pos.to_uint p) +:+ rest) = Some (Pos.to_uint p, rest).
Proof.
  intros Hd. unfold parse_nat. rewrite parse_digits_uint by exact Hd.
  pose proof (to_uint_head p) as Hh.
  destruct rest as [|c r].
  - destruct (Pos.to_uint p); try contradiction; reflexivity.
  - destruct Hd as [-> | [-> | [-> | ->]]];
      destruct (Pos.to_uint p); try contradiction; reflexivity.
Qed.

Lemma starts_value_uint (d : Decimal.uint) (rest : string) :
  d <> Decimal.Nil -> starts_value (NilEmpty.string_of_uint d +:+ rest) = true.
Proof. destruct d; intros H; [congruence | reflexivity ..]. Qed.

Lemma starts_value_stringify (v : json) (rest : string) :
  starts_value (JSON_stringify v +:+ rest) = true.
Proof.
  destruct v as [|[]|n|s|l|l]; try reflexivity.
  destruct n as [|p|p]; try reflexivity.
  apply starts_value_uint, DecimalPos.Unsigned.to_uint_nonnil.
Qed.

(** A text that starts a value is not white space and closes no bracket. *)
Lemma starts_value_inv (s : string) :
  starts_value s = true ->
  skip_ws s = s /\ peek "]" s = None /\ peek "}" s = None.
Proof.
  destruct s as [|c r]; [discriminate |].
  destruct c as [[] [] [] [] [] [] [] []]; intros H; try discriminate H;
    repeat split; reflexivity.
Qed.

Lemma parse_value_digits (fuel : nat) (s : string) :
  match s with String c _ => is_digit c = true | EmptyString => False end ->
  parse_value (S fuel) s =
  match parse_nat s with
  | Some (u, rest) => Some (JNum (Z.of_int (Decimal.Pos u)), rest)
  | None => None
  end.
Proof.
  destruct s as [|c r]; [contradiction |].
  destruct c as [[] [] [] [] [] [] [] []]; intros H; try discriminate H; reflexivity.
Qed.

Lemma uint_head_digit (d : Decimal.uint) (rest : string) :
  d <> Decimal.Nil ->
  match NilEmpty.string_of_uint d +:+ rest with
  | String c _ => is_digit c = true
  | EmptyString => False
  end.
Proof. destruct d; intros H; [congruence | reflexivity ..]. Qed.

Lemma parse_value_num (n : Z) (fuel : nat) (rest : string) :
  delim rest ->
  parse_value (S fuel) (string_of_Z n +:+ rest) = Some (JNum n, rest).
Proof.
  intros Hd. destruct n as [|p|p].
  - destruct rest as [|c r]; [reflexivity |].
    destruct Hd as [-> | [-> | [-> | ->]]]; reflexivity.
  - unfold string_of_Z. simpl Z.to_int. simpl NilEmpty.string_of_int.
    rewrite parse_value_digits
      by apply uint_head_digit, DecimalPos.Unsigned.to_uint_nonnil.
    rewrite parse_nat_pos by exact Hd.
    change (Decimal.Pos (Pos.to_uint p)) with (Z.to_int (Z.pos p)).
    now rewrite DecimalZ.of_to.
  - unfold string_of_Z. simpl Z.to_int. simpl NilEmpty.string_of_int.
    rewrite append_cons.
    change (parse_value (S fuel) (String "-" ?r))
      with (match parse_nat r with
            | Some (u, rest) => Some (JNum (Z.of_int (Decimal.Neg u)), rest)
            | None => None
            end).
    rewrite parse_nat_pos by exact Hd.
    change (Decimal.Neg (Pos.to_uint p)) with (Z.to_int (Z.neg p)).
    now rewrite DecimalZ.of_to.
Qed.

Lemma parse_value_str (s : string) (fuel : nat) (rest : string) :
  parse_value (S fuel) (quote s +:+ rest) = Some (JStr s, rest).
Proof.
  unfold quote. rewrite append_cons, append_assoc.
  change (parse_value (S fuel) (String dquote ?r))
    with (match parse_chars r with
          | Some (t, rest) => Some (JStr t, rest)
          | None => None
          end).
  now rewrite append_cons, append_nil, parse_chars_escape.
Qed.

Lemma parse_elems_S (fuel : nat) (s : string) :
  parse_elems (S fuel) s =
  match parse_value fuel s with
  | Some (v, r) =>
      match peek "," (skip_ws r) with
      | Some r' =>
          match parse_elems fuel r' with
          | Some (l, rest) => Some (v :: l, rest)
          | None => None
          end
      | None =>
          match peek "]" (skip_ws r) with
          | Some rest => Some ([v], rest)
          | None => None
          end
      end
  | None => None
  end.
Proof. reflexivity. Qed.

Lemma parse_elems_join (l : list json) :
  l <> [] -> Forall reads_back l ->
  forall (fuel : nat) (rest : string),
    (fold_right (fun x n => S (need x + n)) O l <= fuel)%nat -> delim rest ->
    parse_elems fuel (join_close "]" (List.map JSON_stringify l) +:+ rest) = Some (l, rest).
Proof.
  induction l as [|x l IH]; [congruence |].
  intros _ HF fuel rest Hfuel Hd.
  apply Forall_cons in HF as [Hx HF].
  simpl in Hfuel. destruct fuel as [|fuel]; [lia |].
  rewrite parse_elems_S.
  destruct l as [|y l].
  - simpl. rewrite append_assoc.
    rewrite Hx; [reflexivity | lia | simpl; auto].
  - change (join_close "]" (List.map JSON_stringify (x :: y :: l)))
      with (JSON_stringify x +:+ "," +:+ join_close "]" (List.map JSON_stringify (y :: l))).
    rewrite !append_assoc.
    rewrite Hx; [| lia | simpl; auto].
    rewrite append_cons, append_nil.
    change (peek "," (skip_ws (String "," ?r))) with (Some r). cbv iota beta.
    rewrite IH; [reflexivity | congruence | exact HF | simpl in *; lia | exact Hd].
Qed.

Lemma parse_members_S (fuel : nat) (s : string) :
  parse_members (S fuel) s =
  match peek dquote (skip_ws s) with
  | Some r =>
      match parse_chars r with
      | Some (k, r1) =>
          match peek ":" (skip_ws r1) with
          | Some r2 =>
              match parse_value fuel r2 with
              | Some (v, r3) =>
                  match peek "," (skip_ws r3) with
                  | Some r4 =>
                      match parse_members fuel r4 with
                      | Some (l, rest) => Some ((k, v) :: l, rest)
                      | None => None
                      end
                  | None =>
                      match peek "}" (skip_ws r3) with
                      | Some rest => Some ([(k, v)], rest)
                      | None => None
                      end
                  end
              | None => None
              end
          | None => None
          end
      | None => None
      end
  | None => None
  end.
Proof. reflexivity. Qed.

Lemma parse_member_head (k : string) (tl : string) :
  peek dquote (skip_ws (quote k +:+ tl)) = Some (escape k +:+ String dquote tl) /\
  parse_chars (escape k +:+ String dquote tl) = Some (k, tl).
Proof.
  split; [| apply parse_chars_escape].
  unfold quote. now rewrite append_cons, append_assoc.
Qed.

Lemma parse_members_join (l : list (string * json)) :
  l <> [] -> Forall (fun kv => reads_back (snd kv)) l ->
  forall (fuel : nat) (rest : string),
    (fold_right (fun kv n => S (need (snd kv) + n)) O l <= fuel)%nat -> delim rest ->
    parse_members fuel (join_close "}" (List.map member_text l) +:+ rest) = Some (l, rest).
Proof.
  induction l as [|[k x] l IH]; [congruence |].
  intros _ HF fuel rest Hfuel Hd.
  apply Forall_cons in HF as [Hx HF]. simpl in Hx.
  simpl in Hfuel. destruct fuel as [|fuel]; [lia |].
  rewrite parse_members_S.
  destruct l as [|y l].
  - change (join_close "}" (List.map member_text [(k, x)]))
      with (member_text (k, x) +:+ "}").
    unfold member_text. simpl fst. simpl snd.
    rewrite !append_assoc.
    destruct (parse_member_head k (":" +:+ JSON_stringify x +:+ "}" +:+ rest)) as [-> ->].
    rewrite append_cons, append_nil.
    change (peek ":" (skip_ws (String ":" ?r))) with (Some r). cbv iota beta.
    rewrite Hx; [reflexivity | lia | simpl; auto].
  - change (join_close "}" (List.map member_text ((k, x) :: y :: l)))
      with (member_text (k, x) +:+ "," +:+ join_close "}" (List.map member_text (y :: l))).
    unfold member_text at 1. simpl fst. simpl snd.
    rewrite !append_assoc.
    destruct (parse_member_head k
      (":" +:+ JSON_stringify x +:+ "," +:+
         join_close "}" (List.map member_text (y :: l)) +:+ rest)) as [-> ->].
    rewrite append_cons, append_nil.
    change (peek ":" (skip_ws (String ":" ?r))) with (Some r). cbv iota beta.
    rewrite Hx; [| lia | simpl; auto].
    rewrite append_cons, append_nil.
    change (peek "," (skip_ws (String "," ?r))) with (Some r). cbv iota beta.
    rewrite IH; [reflexivity | congruence | exact HF | simpl in *; lia | exact Hd].
Qed.

Lemma join_close_head (f : json -> string) (close : string) (x : json) (l : list json) (rest : string) :
  (forall r, starts_value (f x +:+ r) = true) ->
  starts_value (join_close close (List.map f (x :: l)) +:+ rest) = true.
Proof.
  intros H. destruct l as [|y l].
  - simpl. rewrite append_assoc. apply H.
  - change (join_close close (List.map f (x :: y :: l)))
      with (f x +:+ "," +:+ join_close close (List.map f (y :: l))).
    rewrite append_assoc. apply H.
Qed.

Lemma members_head (kv : string * json) (l : list (string * json)) (rest : string) :
  skip_ws (join_close "}" (List.map member_text (kv :: l)) +:+ rest) =
    join_close "}" (List.map member_text (kv :: l)) +:+ rest /\
  peek "}" (join_close "}" (List.map member_text (kv :: l)) +:+ rest) = None.
Proof.
  destruct l as [|y l].
  - change (join_close "}" (List.map member_text [kv])) with (member_text kv +:+ "}").
    unfold member_text, quote. rewrite !append_assoc, append_cons. split; reflexivity.
  - change (join_close "}" (List.map member_text (kv :: y :: l)))
      with (member_text kv +:+ "," +:+ join_close "}" (List.map member_text (y :: l))).
    unfold member_text at 1 3, quote. rewrite !append_assoc, append_cons. split; reflexivity.
Qed.

Theorem parse_value_stringify (v : json) : reads_back v.
Proof.
  induction v as [|b|n|s|l IH|l IH] using json_ind; intros fuel rest Hfuel Hd;
    (destruct fuel as [|fuel]; [simpl in Hfuel; lia |]).
  - reflexivity.
  - destruct b; reflexivity.
  - apply parse_value_num, Hd.
  - apply parse_value_str.
  - change (JSON_stringify (JArr l)) with ("[" +:+ join_close "]" (List.map JSON_stringify l)).
    rewrite append_assoc, append_cons, append_nil.
    destruct l as [|x l]; [reflexivity |].
    change (parse_value (S fuel) (String "[" ?r))
      with (match peek "]" (skip_ws r) with
            | Some rest => Some (JArr [], rest)
            | None =>
                match parse_elems fuel r with
                | Some (l, rest) => Some (JArr l, rest)
                | None => None
                end
            end).
    destruct (starts_value_inv
      (join_close "]" (List.map JSON_stringify (x :: l)) +:+ rest)) as (-> & -> & _).
    { apply join_close_head. intros r. apply starts_value_stringify. }
    rewrite parse_elems_join; [reflexivity | congruence | exact IH | simpl in *; lia | exact Hd].
  - change (JSON_stringify (JObj l)) with ("{" +:+ join_close "}" (List.map member_text l)).
    rewrite append_assoc, append_cons, append_nil.
    destruct l as [|kv l]; [reflexivity |].
    change (parse_value (S fuel) (String "{" ?r))
      with (match peek "}" (skip_ws r) with
            | Some rest => Some (JObj [], rest)
            | None =>
                match parse_members fuel r with
                | Some (l, rest) => Some (JObj l, rest)
                | None => None
                end
            end).
    destruct (members_head kv l rest) as [-> ->].
    rewrite parse_members_join; [reflexivity | congruence | exact IH | simpl in *; lia | exact Hd].
Qed.

Lemma join_close_length {A : Type} (f : A -> string) (g : A -> nat) (close : string)
    (l : list A) :
  (1 <= String.length close)%nat ->
  Forall (fun x => (g x <= String.length (f x))%nat) l ->
  (fold_right (fun x n => S (g x + n)) O l <= String.length (join_close close (List.map f l)))%nat.
Proof.
  intros Hc. induction l as [|x l IH]; intros HF; [simpl; lia |].
  apply Forall_cons in HF as [Hx HF]. specialize (IH HF).
  destruct l as [|y l].
  - simpl. rewrite length_append. lia.
  - change (join_close close (List.map f (x :: y :: l)))
      with (f x +:+ "," +:+ join_close close (List.map f (y :: l))).
    rewrite !length_append. simpl in *. lia.
Qed.

Lemma string_of_Z_length (n : Z) : (1 <= String.length (string_of_Z n))%nat.
Proof.
  destruct n as [|p|p]; unfold string_of_Z; simpl; try lia.
  pose proof (DecimalPos.Unsigned.to_uint_nonnil p) as H.
  destruct (Pos.to_uint p); simpl; try lia; congruence.
Qed.

Lemma need_le_length (v : json) : (need v <= String.length (JSON_stringify v))%nat.
Proof.
  induction v as [|b|n|s|l IH|l IH] using json_ind.
  - simpl. lia.
  - destruct b; simpl; lia.
  - apply string_of_Z_length.
  - simpl. lia.
  - change (JSON_stringify (JArr l)) with ("[" +:+ join_close "]" (List.map JSON_stringify l)).
    rewrite length_append.
    pose proof (join_close_length JSON_stringify need "]" l (le_n 1) IH). simpl in *. lia.
  - change (JSON_stringify (JObj l)) with ("{" +:+ join_close "}" (List.map member_text l)).
    rewrite length_append.
    pose proof (join_close_length member_text (fun kv => need (snd kv)) "}" l) as H.
    simpl in *. apply le_n_S, H; [lia |].
    eapply Forall_impl; [exact IH |].
    intros [k x] Hx. unfold member_text. rewrite !length_append. simpl in *. lia.
Qed.

(** [JSON.parse(JSON.stringify(v))] is [v]. *)
Theorem JSON_parse_stringify (v : json) : JSON_parse (JSON_stringify v) = Some v.
Proof.
  unfold JSON_parse.
  rewrite <- (append_nil_r (JSON_stringify v)) at 2.
  rewrite parse_value_stringify; [reflexivity | | exact I].
  pose proof (need_le_length v). lia.
Qed.

Lemma JSON_stringify_nonempty (v : json) : String.eqb (JSON_stringify v) "" = false.
Proof.
  pose proof (starts_value_stringify v "") as H. rewrite append_nil_r in H.
  destruct (JSON_stringify v); [discriminate H | reflexivity].
Qed.

End JsonFacts.

(** ** The handlers *)

Ltac unfold_handler :=
  cbv [run try_catch mbind M_bind mret M_ret call throw get_world modify
       logger_error Date_now_toISOString redis_get redis_setEx redis_del redis_ping
       pool_query_probe JSON_parse_or_throw];
  cbn [outcome now users users_id_seq redis hits random draws log calls
       add_call add_log set_redis set_hits set_users set_draws at_time fst snd].

Ltac world_simpl :=
  cbn [outcome now users users_id_seq redis hits random draws log calls
       add_call add_log set_redis set_hits set_users set_draws at_time fst snd].

(** *** [/health] *)

Lemma health_db_fails (w : World) (e : string) :
  outcome w PgQuery = Some e ->
  run health w = (unhealthy w e, add_log ("Health check failed", e) (add_call PgQuery w)).
Proof.
  intros H. unfold health. unfold_handler. rewrite H. reflexivity.
Qed.

Lemma health_cache_fails (w : World) (e : string) :
  outcome w PgQuery = None -> outcome w RedisPing = Some e ->
  run health w =
  (unhealthy w e,
   add_log ("Health check failed", e) (add_call RedisPing (add_call PgQuery w))).
Proof.
  intros H1 H2. unfold health. unfold_handler. rewrite H1. world_simpl. rewrite H2.
  reflexivity.
Qed.

Lemma health_both_up (w : World) :
  outcome w PgQuery = None -> outcome w RedisPing = None ->
  run health w = (healthy w, add_call RedisPing (add_call PgQuery w)).
Proof.
  intros H1 H2. unfold health. unfold_handler. rewrite H1. world_simpl. rewrite H2.
  reflexivity.
Qed.

(** *** [/api/status] *)

Lemma live_add_call (op : Op) (w : World) (key : string) : live (add_call op w) key = live w key.
Proof. reflexivity. Qed.

Lemma status_get_fails (w : World) (e : string) :
  outcome w RedisGet = Some e ->
  run api_status w =
  (internal_server_error, add_log ("Status endpoint error", e) (add_call RedisGet w)).
Proof.
  intros H. unfold api_status. unfold_handler. rewrite H. reflexivity.
Qed.

Lemma status_hit (w : World) (s : string) (v : json) :
  outcome w RedisGet = None -> live w status_key = Some s -> truthy (Some s) = true ->
  JSON_parse s = Some v ->
  run api_status w = (res_json 200 v, add_call RedisGet w).
Proof.
  intros H1 H2 H3 H4. unfold api_status. unfold_handler. rewrite H1.
  rewrite live_add_call. fold status_key. rewrite H2, H3.
  change (default "" (Some s)) with s. rewrite H4.
  reflexivity.
Qed.

Lemma status_miss_db_fails (w : World) (e : string) :
  outcome w RedisGet = None -> truthy (live w status_key) = false ->
  outcome w PgQuery = Some e ->
  run api_status w =
  (internal_server_error,
   add_log ("Status endpoint error", e) (add_call PgQuery (add_call RedisGet w))).
Proof.
  intros H1 H2 H3. unfold api_status. unfold_handler. rewrite H1.
  rewrite live_add_call. fold status_key. rewrite H2. world_simpl. rewrite H3. reflexivity.
Qed.

Lemma status_miss_set_fails (w : World) (e : string) :
  outcome w RedisGet = None -> truthy (live w status_key) = false ->
  outcome w PgQuery = None -> outcome w RedisSetEx = Some e ->
  run api_status w =
  (internal_server_error,
   add_log ("Status endpoint error", e)
     (add_call RedisSetEx (add_call PgQuery (add_call RedisGet w)))).
Proof.
  intros H1 H2 H3 H4. unfold api_status. unfold_handler. rewrite H1.
  rewrite live_add_call. fold status_key. rewrite H2. world_simpl. rewrite H3.
  world_simpl. rewrite H4. reflexivity.
Qed.

Lemma status_miss_ok (w : World) :
  outcome w RedisGet = None -> truthy (live w status_key) = false ->
  outcome w PgQuery = None -> outcome w RedisSetEx = None ->
  run api_status w =
  (res_json 200 (fresh_status w),
   set_redis (insert status_key (JSON_stringify (fresh_status w), now w + 60 * 1000))
     (add_call RedisSetEx (add_call PgQuery (add_call RedisGet w)))).
Proof.
  intros H1 H2 H3 H4. unfold api_status. unfold_handler. rewrite H1.
  rewrite live_add_call. fold status_key. rewrite H2. world_simpl. rewrite H3.
  world_simpl. rewrite H4. reflexivity.
Qed.

(** *** [/api/metrics] *)

Lemma fresh_metrics_eq (w : World) :
  fresh_metrics w = (Ok (metrics_of w), set_draws (S (S (S (draws w)))) w).
Proof. reflexivity. Qed.

Lemma metrics_get_fails (w : World) (e : string) :
  outcome w RedisGet = Some e ->
  run api_metrics w =
  (internal_server_error, add_log ("Metrics endpoint error", e) (add_call RedisGet w)).
Proof.
  intros H. unfold api_metrics. unfold_handler. rewrite H. reflexivity.
Qed.

Lemma metrics_miss_set_fails (w : World) (e : string) :
  outcome w RedisGet = None -> truthy (live w metrics_key) = false ->
  outcome w RedisSetEx = Some e ->
  run api_metrics w =
  (internal_server_error,
   add_log ("Metrics endpoint error", e)
     (add_call RedisSetEx (set_draws (S (S (S (draws w)))) (add_call RedisGet w)))).
Proof.
  intros H1 H2 H3. unfold api_metrics. unfold_handler. rewrite H1.
  rewrite live_add_call. fold metrics_key. rewrite H2. rewrite fresh_metrics_eq.
  world_simpl. rewrite H3. reflexivity.
Qed.

Lemma metrics_miss_ok (w : World) :
  outcome w RedisGet = None -> truthy (live w metrics_key) = false ->
  outcome w RedisSetEx = None ->
  run api_metrics w =
  (res_json 200 (metrics_of w),
   set_redis (insert metrics_key (JSON_stringify (metrics_of w), now w + 30 * 1000))
     (add_call RedisSetEx (set_draws (S (S (S (draws w)))) (add_call RedisGet w)))).
Proof.
  intros H1 H2 H3. unfold api_metrics. unfold_handler. rewrite H1.
  rewrite live_add_call. fold metrics_key. rewrite H2. rewrite fresh_metrics_eq.
  world_simpl. rewrite H3. reflexivity.
Qed.

(** *** [POST /api/users] *)

Lemma truthy_Some (s : string) : s <> "" -> truthy (Some s) = true.
Proof.
  intros H. unfold truthy. destruct (String.eqb_spec s ""); [contradiction | reflexivity].
Qed.

(** Every way [POST /api/users] can go for a well-formed body. *)
Lemma post_users_cases (req : Request) (w : World) (name email : string) :
  well_formed req name email ->
  run (post_users req) w =
  match outcome w PgQuery with
  | Some e => (internal_server_error, add_log ("Create user error", e) (add_call PgQuery w))
  | None =>
      if too_long name email then
        (internal_server_error,
         add_log ("Create user error", "value too long for type character varying(255)")
           (add_call PgQuery w))
      else if taken w email then
        (internal_server_error,
         add_log ("Create user error", unique_violation)
           (set_users (fun l => l) (fun s => s + 1) (add_call PgQuery w)))
      else
        match outcome w RedisDel with
        | Some e =>
            (internal_server_error,
             add_log ("Create user error", e)
               (add_call RedisDel (after_insert w name email)))
        | None =>
            (res_json 201 (returned_row (new_row w name email)),
             set_redis (delete metrics_key)
               (add_call RedisDel (after_insert w name email)))
        end
  end.
Proof.
  intros (Hn & He & Hn' & He').
  unfold post_users. rewrite Hn, He, !truthy_Some by assumption.
  cbn [negb orb]. change (default "" (Some ?s)) with s.
  unfold pool_query_insert_user. unfold_handler.
  destruct (outcome w PgQuery) as [e|]; [reflexivity |].
  fold (too_long name email). destruct (too_long name email); [reflexivity |].
  world_simpl. fold (taken w email). destruct (taken w email); [reflexivity |].
  world_simpl. destruct (outcome w RedisDel) as [e|]; reflexivity.
Qed.

Lemma post_users_missing (req : Request) (w : World) :
  truthy (body_name (body req)) = false \/ truthy (body_email (body req)) = false ->
  run (post_users req) w =
  (res_json 400 (JObj [("error", JStr "Name and email are required")]), w).
Proof.
  intros H. unfold post_users.
  replace (negb (truthy (body_name (body req))) || negb (truthy (body_email (body req))))
    with true; [reflexivity |].
  destruct H as [-> | ->]; [reflexivity |]. now rewrite orb_true_r.
Qed.

(** ** Cache failures in [/api/status] and [/api/metrics] *)

Lemma status_cache_call_fails (w : World) :
  cache_call_fails status_key w -> fst (run api_status w) = internal_server_error.
Proof.
  intros [H | [Hmiss H]].
  - destruct (outcome w RedisGet) as [e|] eqn:E; [| congruence].
    now rewrite (status_get_fails w e E).
  - destruct (outcome w RedisGet) as [e|] eqn:E; [now rewrite (status_get_fails w e E) |].
    destruct (outcome w PgQuery) as [e|] eqn:E1;
      [now rewrite (status_miss_db_fails w e E Hmiss E1) |].
    destruct (outcome w RedisSetEx) as [e|] eqn:E2; [| congruence].
    now rewrite (status_miss_set_fails w e E Hmiss E1 E2).
Qed.

Lemma metrics_cache_call_fails (w : World) :
  cache_call_fails metrics_key w -> fst (run api_metrics w) = internal_server_error.
Proof.
  intros [H | [Hmiss H]].
  - destruct (outcome w RedisGet) as [e|] eqn:E; [| congruence].
    now rewrite (metrics_get_fails w e E).
  - destruct (outcome w RedisGet) as [e|] eqn:E; [now rewrite (metrics_get_fails w e E) |].
    destruct (outcome w RedisSetEx) as [e|] eqn:E2; [| congruence].
    now rewrite (metrics_miss_set_fails w e E Hmiss E2).
Qed.

(** Claim C1, refuted as stated: with the cache store unreachable,
    [GET /api/status] and [GET /api/metrics] do not answer 200 with fresh
    data; both answer 500 with the generic error body. *)
Lemma cache_down_answers_500 :
  let w := at_time 1752051530123 cache_down boot in
  fst (app (GET_ "/api/status" "203.0.113.7") w) = internal_server_error /\
  fst (app (GET_ "/api/metrics" "203.0.113.7") w) = internal_server_error /\
  status internal_server_error = 500.
Proof. vm_compute. repeat split; reflexivity. Qed.

(** Claim C1, as amended: a failure of the cache read, or of the cache write
    after a miss, inside [/api/status] or [/api/metrics] is not absorbed: the
    handler logs the message of the driver under its label, leaves the cache
    as it was, and answers 500 with the generic body
    [{error: 'Internal server error'}], which carries no detail of the
    failure.  (In [/api/status] the write is attempted once the relational
    probe has succeeded; when the probe fails first the answer is the same
    500.) *)
Theorem cache_failure_answers_500 (w : World) :
  (cache_call_fails status_key w -> fst (run api_status w) = internal_server_error) /\
  (cache_call_fails metrics_key w -> fst (run api_metrics w) = internal_server_error) /\
  (forall e, outcome w RedisGet = Some e ->
     fails_with api_status "Status endpoint error" e w /\
     fails_with api_metrics "Metrics endpoint error" e w) /\
  (forall e, outcome w RedisGet = None -> outcome w RedisSetEx = Some e ->
     (truthy (live w status_key) = false -> outcome w PgQuery = None ->
      fails_with api_status "Status endpoint error" e w) /\
     (truthy (live w metrics_key) = false ->
      fails_with api_metrics "Metrics endpoint error" e w)).
Proof.
  split; [apply status_cache_call_fails |].
  split; [apply metrics_cache_call_fails |].
  unfold fails_with. split.
  - intros e H. rewrite (status_get_fails w e H), (metrics_get_fails w e H).
    repeat split.
  - intros e Hget Hset. split.
    + intros Hmiss Hpg. rewrite (status_miss_set_fails w e Hget Hmiss Hpg Hset).
      repeat split.
    + intros Hmiss. rewrite (metrics_miss_set_fails w e Hget Hmiss Hset).
      repeat split.
Qed.

Lemma cache_failure_answers_500_witness :
  let w := at_time 1752051530123 cache_down boot in
  fails_with api_status "Status endpoint error" "connect ECONNREFUSED 127.0.0.1:6379" w /\
  fails_with api_metrics "Metrics endpoint error" "connect ECONNREFUSED 127.0.0.1:6379" w.
Proof.
  apply (proj1 (proj2 (proj2
           (cache_failure_answers_500 (at_time 1752051530123 cache_down boot))))).
  reflexivity.
Defined.

(** ** Probe failures in [/api/status] and [/api/metrics] *)

(** Claim C3, refuted as stated: with the relational store unreachable and
    nothing cached, [/api/status] returns no snapshot with a downgraded
    entry; it answers 500 with the generic error body. *)
Lemma db_down_status_aborts :
  let w := at_time 1752051530123 db_down boot in
  status (fst (run api_status w)) = 500 /\
  JSON_parse (payload (fst (run api_status w))) =
    Some (JObj [("error", JStr "Internal server error")]).
Proof. vm_compute. split; reflexivity. Qed.

Lemma metrics_never_queries (w : World) :
  exists l, issues api_metrics w l /\ ~ In PgQuery l.
Proof.
  unfold issues, api_metrics. unfold_handler.
  destruct (outcome w RedisGet) as [e|].
  { exists [RedisGet]. split; [reflexivity | simpl; intuition discriminate]. }
  rewrite live_add_call. destruct (truthy (live w "system:metrics")).
  - exists [RedisGet]. split; [| simpl; intuition discriminate].
    destruct (JSON_parse (default "" (live w "system:metrics"))); reflexivity.
  - rewrite fresh_metrics_eq. world_simpl.
    exists [RedisGet; RedisSetEx]. split; [| simpl; intuition discriminate].
    destruct (outcome w RedisSetEx); world_simpl; now rewrite <- app_assoc.
Qed.

(** Claim C3, as amended: a failing store probe does not downgrade one entry
    of the snapshot, it aborts the request.  In [/api/status] a failing
    relational probe (made after a cache miss) is logged and gives 500 with
    the generic body, and no snapshot is returned or cached; a failing cache
    read does the same in [/api/status] and in [/api/metrics];
    [/api/metrics] makes no relational probe at all.  Every entry of a
    snapshot that [/api/status] computes and returns is ['healthy'], and the
    snapshot it caches is the one it returns: no entry is downgraded to
    ['error']. *)
Theorem probe_failure_aborts (w : World) :
  (forall e, outcome w RedisGet = None -> truthy (live w status_key) = false ->
   outcome w PgQuery = Some e ->
   fails_with api_status "Status endpoint error" e w /\
   issues api_status w [RedisGet; PgQuery]) /\
  (forall e, outcome w RedisGet = Some e ->
   fails_with api_status "Status endpoint error" e w /\
   fails_with api_metrics "Metrics endpoint error" e w) /\
  (exists l, issues api_metrics w l /\ ~ In PgQuery l) /\
  (outcome w RedisGet = None -> truthy (live w status_key) = false ->
   status (fst (run api_status w)) = 200 ->
   exists entries : list json,
     fst (run api_status w) =
       res_json 200 (JObj [("services", JArr entries);
                           ("timestamp", JStr (Clock.toISOString (now w)))]) /\
     Forall (fun entry => exists name uptime,
               entry = JObj [("name", JStr name); ("status", JStr "healthy");
                             ("uptime", JStr uptime)]) entries /\
     redis (snd (run api_status w)) !! status_key =
       Some (payload (fst (run api_status w)), now w + 60 * 1000)).
Proof.
  split; [| split; [| split]].
  - intros e H1 H2 H3. unfold fails_with, issues.
    rewrite (status_miss_db_fails w e H1 H2 H3).
    repeat split. world_simpl. now rewrite <- app_assoc.
  - intros e H. unfold fails_with.
    rewrite (status_get_fails w e H), (metrics_get_fails w e H). repeat split.
  - apply metrics_never_queries.
  - intros Hget Hmiss H200.
    destruct (outcome w PgQuery) as [e|] eqn:E1.
    { rewrite (status_miss_db_fails w e Hget Hmiss E1) in H200. discriminate H200. }
    destruct (outcome w RedisSetEx) as [e|] eqn:E2.
    { rewrite (status_miss_set_fails w e Hget Hmiss E1 E2) in H200. discriminate H200. }
    rewrite (status_miss_ok w Hget Hmiss E1 E2). cbn [fst snd].
    eexists. split; [reflexivity |]. split.
    + repeat (constructor; [eexists _, _; reflexivity |]). constructor.
    + apply lookup_insert_eq.
Qed.

Lemma probe_failure_aborts_witness :
  let w := at_time 1752051530123 db_down boot in
  fails_with api_status "Status endpoint error" "connect ECONNREFUSED 127.0.0.1:5432" w /\
  issues api_status w [RedisGet; PgQuery].
Proof.
  apply (proj1 (probe_failure_aborts (at_time 1752051530123 db_down boot)));
    reflexivity.
Defined.

(** ** Creating a user *)

(** Claim C4, refuted as stated: a second [POST /api/users] with the email
    of an existing row is answered 500, which is not a client error. *)
Lemma duplicate_email_answers_500 :
  let req := POST_users "203.0.113.7" (Some "Johnny") (Some "john.doe@example.com") in
  let r := fst (app req boot) in
  status r = 500 /\ ~ (400 <= status r < 500) /\
  users (snd (app req boot)) = users boot.
Proof.
  vm_compute. split; [reflexivity | split; [| reflexivity]].
  intros [_ H]. discriminate H.
Qed.

(** Claim C4, as amended: [POST /api/users] with an email that an existing
    row already has creates no second row, and is answered 500 with the
    generic body: the uniqueness violation is not told apart from any other
    store error. *)
Theorem duplicate_email_no_row (req : Request) (w : World) (name email : string) :
  well_formed req name email ->
  taken w email = true ->
  fst (run (post_users req) w) = internal_server_error /\
  users (snd (run (post_users req) w)) = users w.
Proof.
  intros Hwf Ht. rewrite (post_users_cases req w name email Hwf), Ht.
  destruct (outcome w PgQuery); [split; reflexivity |].
  destruct (too_long name email); split; reflexivity.
Qed.

Lemma duplicate_email_no_row_witness :
  let req := POST_users "203.0.113.7" (Some "Johnny") (Some "john.doe@example.com") in
  fst (run (post_users req) boot) = internal_server_error /\
  users (snd (run (post_users req) boot)) = users boot.
Proof.
  apply (duplicate_email_no_row
           (POST_users "203.0.113.7" (Some "Johnny") (Some "john.doe@example.com"))
           boot "Johnny" "john.doe@example.com").
  - repeat split; discriminate.
  - reflexivity.
Defined.

Lemma truthy_inv (v : option string) :
  truthy v = true -> exists s, v = Some s /\ s <> "".
Proof.
  destruct v as [s|]; [| discriminate]. unfold truthy.
  destruct (String.eqb_spec s ""); [discriminate |]. eauto.
Qed.

(** A 201 is only given after the row is inserted and the metrics key is
    deleted. *)
Lemma post_users_201 (req : Request) (w : World) :
  status (fst (run (post_users req) w)) = 201 ->
  exists name email,
    well_formed req name email /\
    run (post_users req) w =
    (res_json 201 (returned_row (new_row w name email)),
     set_redis (delete metrics_key) (add_call RedisDel (after_insert w name email))).
Proof.
  intros H.
  destruct (truthy (body_name (body req))) eqn:E1;
    [| rewrite post_users_missing in H by (now left); discriminate H].
  destruct (truthy (body_email (body req))) eqn:E2;
    [| rewrite post_users_missing in H by (now right); discriminate H].
  apply truthy_inv in E1 as (name & E1 & Hn). apply truthy_inv in E2 as (email & E2 & He).
  assert (Hwf : well_formed req name email) by (repeat split; assumption).
  exists name, email. split; [exact Hwf |].
  rewrite (post_users_cases req w name email Hwf) in H |- *.
  destruct (outcome w PgQuery); [discriminate H |].
  destruct (too_long name email); [discriminate H |].
  destruct (taken w email); [discriminate H |].
  destruct (outcome w RedisDel); [discriminate H | reflexivity].
Qed.

(** Claim C5: after a [POST /api/users] that succeeded (201), the cache
    holds nothing under the metrics key, and the next [GET /api/metrics],
    whenever it arrives, misses the cache and recomputes: with the cache
    store answering, it returns 200 with the metrics of its own instant,
    takes three new random draws, and stores the new snapshot for 30
    seconds. *)
Theorem create_invalidates_metrics (req : Request) (w : World) :
  status (fst (run (post_users req) w)) = 201 ->
  let w1 := snd (run (post_users req) w) in
  redis w1 !! metrics_key = None /\
  forall (t : Z) (o : Op -> option string),
    o RedisGet = None -> o RedisSetEx = None ->
    let w2 := at_time t o w1 in
    fst (run api_metrics w2) = res_json 200 (metrics_of w2) /\
    draws (snd (run api_metrics w2)) = S (S (S (draws w1))) /\
    issues api_metrics w2 [RedisGet; RedisSetEx] /\
    redis (snd (run api_metrics w2)) !! metrics_key =
      Some (JSON_stringify (metrics_of w2), t + 30 * 1000).
Proof.
  intros H. apply post_users_201 in H as (name & email & _ & ->).
  cbn [snd]. cbv zeta.
  assert (Hgone : redis (set_redis (delete metrics_key)
                    (add_call RedisDel (after_insert w name email))) !! metrics_key = None).
  { world_simpl. apply lookup_delete_eq. }
  split; [exact Hgone |].
  intros t o Hget Hset.
  set (w1 := set_redis _ _) in *.
  assert (Hmiss : truthy (live (at_time t o w1) metrics_key) = false).
  { unfold live. world_simpl. now rewrite Hgone. }
  unfold issues.
  rewrite (metrics_miss_ok (at_time t o w1) Hget Hmiss Hset). world_simpl.
  repeat split.
  - now rewrite <- app_assoc.
  - apply lookup_insert_eq.
Qed.

Lemma create_invalidates_metrics_witness :
  let req := POST_users "203.0.113.7" (Some "Dana") (Some "dana@example.com") in
  let w := snd (run api_metrics boot) in
  redis w !! metrics_key <> None /\
  redis (snd (run (post_users req) w)) !! metrics_key = None.
Proof.
  split; [vm_compute; discriminate |].
  apply (create_invalidates_metrics
           (POST_users "203.0.113.7" (Some "Dana") (Some "dana@example.com"))
           (snd (run api_metrics boot))).
  vm_compute. reflexivity.
Defined.



(** ** The health check *)

(** Claim C6, refuted as stated: the 503 body carries no per-dependency
    detail, and the cache store is not probed on every call.  With the same
    driver message, a relational outage and a cache outage give the same
    response, whose body has the three members [status], [timestamp] and
    [error]; in the relational outage the only store call is the query. *)
Lemma health_503_tells_no_dependency :
  let w_db := at_time 1752051530123 (dependency_down PgQuery) boot in
  let w_cache := at_time 1752051530123 (dependency_down RedisPing) boot in
  fst (run health w_db) = fst (run health w_cache) /\
  status (fst (run health w_db)) = 503 /\
  JSON_parse (payload (fst (run health w_db))) =
    Some (JObj [("status", JStr "unhealthy");
                ("timestamp", JStr "2025-07-09T08:58:50.123Z");
                ("error", JStr "Connection terminated unexpectedly")]) /\
  calls (snd (run health w_db)) = [PgQuery].
Proof. vm_compute. repeat split; reflexivity. Qed.

(** Claim C6, as amended: [GET /health] is never cached: it leaves the cache
    as it was and reads nothing from it; every call queries the relational
    store and, only if that succeeds, pings the cache store.  It answers 200
    with status ['healthy'] and the list of services when both probes
    succeed, and 503 with status ['unhealthy'] and the message of the first
    failing probe otherwise. *)
Theorem health_is_probed_afresh (w : World) :
  redis (snd (run health w)) = redis w /\
  match outcome w PgQuery, outcome w RedisPing with
  | None, None =>
      fst (run health w) = healthy w /\ issues health w [PgQuery; RedisPing]
  | None, Some e =>
      fst (run health w) = unhealthy w e /\ issues health w [PgQuery; RedisPing]
  | Some e, _ =>
      fst (run health w) = unhealthy w e /\ issues health w [PgQuery]
  end.
Proof.
  unfold issues.
  destruct (outcome w PgQuery) as [e|] eqn:E1.
  { rewrite (health_db_fails w e E1). repeat split. }
  destruct (outcome w RedisPing) as [e|] eqn:E2.
  - rewrite (health_cache_fails w e E1 E2). world_simpl.
    repeat split. now rewrite <- app_assoc.
  - rewrite (health_both_up w E1 E2). world_simpl.
    repeat split. now rewrite <- app_assoc.
Qed.

(** Claim C10: when [GET /health] fails, the 503 body is
    [{status: 'unhealthy', timestamp, error}], where [error] is the raw
    message of the first failing probe; it has no [services] member, and
    it is the same whichever probe failed.  The probes run one after the
    other: when the relational probe fails the cache store is not probed. *)
Theorem health_503_exposes_message (w : World) (op : Op) (e : string) :
  first_failing_probe w = Some (op, e) ->
  fst (run health w) =
    res_json 503 (JObj [("status", JStr "unhealthy");
                        ("timestamp", JStr (Clock.toISOString (now w)));
                        ("error", JStr e)]) /\
  issues health w (if op is PgQuery then [PgQuery] else [PgQuery; RedisPing]).
Proof.
  unfold first_failing_probe, issues. intros H.
  destruct (outcome w PgQuery) as [e1|] eqn:E1.
  - injection H as <- <-. rewrite (health_db_fails w e1 E1).
    repeat split.
  - destruct (outcome w RedisPing) as [e2|] eqn:E2; [| discriminate H].
    injection H as <- <-. rewrite (health_cache_fails w e2 E1 E2). world_simpl.
    repeat split. now rewrite <- app_assoc.
Qed.

Lemma health_503_exposes_message_witness :
  let w := at_time 1752051530123 db_down boot in
  fst (run health w) =
    res_json 503 (JObj [("status", JStr "unhealthy");
                        ("timestamp", JStr (Clock.toISOString (now w)));
                        ("error", JStr "connect ECONNREFUSED 127.0.0.1:5432")]) /\
  issues health w [PgQuery].
Proof.
  pose proof (health_503_exposes_message (at_time 1752051530123 db_down boot)
                PgQuery "connect ECONNREFUSED 127.0.0.1:5432" eq_refl) as (H1 & H2).
  split; [exact H1 | exact H2].
Defined.

(** ** The cached status snapshot *)

Lemma truthy_stringify (v : json) : truthy (Some (JSON_stringify v)) = true.
Proof. unfold truthy. now rewrite JsonFacts.JSON_stringify_nonempty. Qed.

(** A snapshot that [/api/status] stored is served back as the same bytes
    until it expires. *)
Lemma status_served_from_cache (w : World) (v : json) (expiry : Z) :
  outcome w RedisGet = None ->
  redis w !! status_key = Some (JSON_stringify v, expiry) ->
  now w <= expiry ->
  run api_status w = (res_json 200 v, add_call RedisGet w).
Proof.
  intros Hget Hc Ht.
  apply (status_hit w (JSON_stringify v) v Hget).
  - unfold live. rewrite Hc. destruct (Z.leb_spec (now w) expiry); [reflexivity | lia].
  - apply truthy_stringify.
  - apply JsonFacts.JSON_parse_stringify.
Qed.

(** Claim C7: once [/api/status] has computed and cached a snapshot, two
    further calls made within its 60 seconds, with no invalidation in
    between, are cache hits (each issues the cache read only) and return the
    same bytes, status and body, as the response that was cached; the body
    is the cached text itself. *)
Theorem status_hits_are_identical (w : World) (t1 t2 : Z) (o1 o2 : Op -> option string) :
  outcome w RedisGet = None -> truthy (live w status_key) = false ->
  outcome w PgQuery = None -> outcome w RedisSetEx = None ->
  t1 <= now w + 60 * 1000 -> t2 <= now w + 60 * 1000 ->
  o1 RedisGet = None -> o2 RedisGet = None ->
  let '(r0, w1) := run api_status w in
  let '(r1, w2) := run api_status (at_time t1 o1 w1) in
  let '(r2, w3) := run api_status (at_time t2 o2 w2) in
  r1 = r0 /\ r2 = r1 /\
  redis w1 !! status_key = Some (payload r1, now w + 60 * 1000) /\
  issues api_status (at_time t1 o1 w1) [RedisGet] /\
  issues api_status (at_time t2 o2 w2) [RedisGet].
Proof.
  intros Hget Hmiss Hpg Hset Ht1 Ht2 Ho1 Ho2.
  rewrite (status_miss_ok w Hget Hmiss Hpg Hset).
  set (w1 := set_redis _ _).
  assert (Hc : redis w1 !! status_key =
               Some (JSON_stringify (fresh_status w), now w + 60 * 1000)).
  { unfold w1. world_simpl. apply lookup_insert_eq. }
  assert (H1 : run api_status (at_time t1 o1 w1) =
               (res_json 200 (fresh_status w), add_call RedisGet (at_time t1 o1 w1))).
  { apply (status_served_from_cache _ _ (now w + 60 * 1000)); [exact Ho1 | exact Hc | exact Ht1]. }
  rewrite H1.
  assert (H2 : run api_status (at_time t2 o2 (add_call RedisGet (at_time t1 o1 w1))) =
               (res_json 200 (fresh_status w),
                add_call RedisGet (at_time t2 o2 (add_call RedisGet (at_time t1 o1 w1))))).
  { apply (status_served_from_cache _ _ (now w + 60 * 1000)); [exact Ho2 | exact Hc | exact Ht2]. }
  rewrite H2. unfold issues. rewrite H1, H2.
  repeat split. exact Hc.
Qed.

Lemma status_hits_are_identical_witness :
  let '(r0, w1) := run api_status boot in
  let '(r1, w2) := run api_status (at_time 1752051540000 all_up w1) in
  let '(r2, w3) := run api_status (at_time 1752051589999 all_up w2) in
  r1 = r0 /\ r2 = r1 /\
  redis w1 !! status_key = Some (payload r1, now boot + 60 * 1000) /\
  issues api_status (at_time 1752051540000 all_up w1) [RedisGet] /\
  issues api_status (at_time 1752051589999 all_up w2) [RedisGet].
Proof.
  apply (status_hits_are_identical boot 1752051540000 1752051589999 all_up all_up);
    try reflexivity; vm_compute; discriminate.
Defined.

(** Claim C8: when [GET /api/status] misses the cache, the only 200 it can
    give carries the constant snapshot -- the three services ['Backend API'],
    ['Database'] and ['Redis Cache'], in this order, each ['healthy'] with
    uptime ['2h 34m'] -- and the timestamp of the call; it gives it whenever
    the relational probe and the cache write succeed.  The rows of the probe
    are not read, so no entry is ever ['error'] or ['warning']. *)
Theorem fresh_status_is_constant (w : World) :
  outcome w RedisGet = None -> truthy (live w status_key) = false ->
  let snapshot :=
    JObj [("services",
           JArr [JObj [("name", JStr "Backend API"); ("status", JStr "healthy");
                       ("uptime", JStr "2h 34m")];
                 JObj [("name", JStr "Database"); ("status", JStr "healthy");
                       ("uptime", JStr "2h 34m")];
                 JObj [("name", JStr "Redis Cache"); ("status", JStr "healthy");
                       ("uptime", JStr "2h 34m")]]);
          ("timestamp", JStr (Clock.toISOString (now w)))] in
  (status (fst (run api_status w)) = 200 -> fst (run api_status w) = res_json 200 snapshot) /\
  (outcome w PgQuery = None -> outcome w RedisSetEx = None ->
   fst (run api_status w) = res_json 200 snapshot).
Proof.
  intros Hget Hmiss snapshot. split.
  - destruct (outcome w PgQuery) as [e|] eqn:E1.
    { rewrite (status_miss_db_fails w e Hget Hmiss E1). discriminate. }
    destruct (outcome w RedisSetEx) as [e|] eqn:E2.
    { rewrite (status_miss_set_fails w e Hget Hmiss E1 E2). discriminate. }
    now rewrite (status_miss_ok w Hget Hmiss E1 E2).
  - intros E1 E2. now rewrite (status_miss_ok w Hget Hmiss E1 E2).
Qed.

Lemma fresh_status_is_constant_witness :
  fst (run api_status boot) =
  res_json 200
    (JObj [("services",
            JArr [JObj [("name", JStr "Backend API"); ("status", JStr "healthy");
                        ("uptime", JStr "2h 34m")];
                  JObj [("name", JStr "Database"); ("status", JStr "healthy");
                        ("uptime", JStr "2h 34m")];
                  JObj [("name", JStr "Redis Cache"); ("status", JStr "healthy");
                        ("uptime", JStr "2h 34m")]]);
           ("timestamp", JStr (Clock.toISOString (now boot)))]).
Proof.
  apply (proj2 (fresh_status_is_constant boot eq_refl eq_refl)); reflexivity.
Defined.

(** ** Rate limiting *)

Section Limiter.

Lemma keeps_ret {A : Type} (a : A) : keeps_hits (mret a).
Proof. intros w. reflexivity. Qed.

Lemma keeps_throw {A : Type} (e : string) : keeps_hits (@throw A e).
Proof. intros w. reflexivity. Qed.

Lemma keeps_get_world : keeps_hits get_world.
Proof. intros w. reflexivity. Qed.

Lemma keeps_modify (f : World -> World) :
  (forall w, hits (f w) = hits w) -> keeps_hits (modify f).
Proof. intros H w. apply H. Qed.

Lemma keeps_call (op : Op) : keeps_hits (call op).
Proof. intros w. unfold call. destruct (outcome w op); reflexivity. Qed.

Lemma keeps_random : keeps_hits Math_random.
Proof. intros w. reflexivity. Qed.

Lemma keeps_bind {A B : Type} (c : M A) (f : A -> M B) :
  keeps_hits c -> (forall a, keeps_hits (f a)) -> keeps_hits (c ≫= f).
Proof.
  intros Hc Hf w. unfold mbind, M_bind. specialize (Hc w).
  destruct (c w) as [[a|e] w']; cbn [snd] in *; [| exact Hc].
  now rewrite Hf.
Qed.

Lemma keeps_try_catch {A : Type} (c : M A) (h : string -> M A) :
  keeps_hits c -> (forall e, keeps_hits (h e)) -> keeps_hits (try_catch c h).
Proof.
  intros Hc Hh w. unfold try_catch. specialize (Hc w).
  destruct (c w) as [[a|e] w']; cbn [snd] in *; [exact Hc |].
  now rewrite Hh.
Qed.

Ltac keeps :=
  repeat first
    [ apply keeps_try_catch; [| intros ?]
    | apply keeps_bind; [| intros ?]
    | apply keeps_ret
    | apply keeps_throw
    | apply keeps_get_world
    | apply keeps_call
    | apply keeps_random
    | apply keeps_modify; intros ?; reflexivity
    | match goal with
      | |- keeps_hits (if ?b then _ else _) => destruct b
      | |- keeps_hits (match ?x with _ => _ end) => destruct x
      end ].

Lemma route_keeps_hits (req : Request) : keeps_hits (route req).
Proof.
  unfold route.
  destruct (method req); repeat case_match;
    unfold health, api_status, api_metrics, get_users, post_users, not_found,
      fresh_metrics, pool_query_select_users, pool_query_insert_user, redis_get,
      redis_setEx, redis_del, redis_ping, pool_query_probe, logger_error,
      Date_now_toISOString, JSON_parse_or_throw;
    cbv zeta; keeps.
Qed.

Lemma not_429_ret (r : Response) : status r <> 429 -> not_429 (mret r).
Proof. intros H w. exact H. Qed.

Lemma not_429_bind {A : Type} (c : M A) (f : A -> M Response) :
  (forall a, not_429 (f a)) -> not_429 (c ≫= f).
Proof.
  intros Hf w. unfold mbind, M_bind.
  destruct (c w) as [[a|e] w']; [apply Hf | exact I].
Qed.

Lemma not_429_throw (e : string) : not_429 (throw e).
Proof. intros w. exact I. Qed.

Lemma not_429_try_catch (c : M Response) (h : string -> M Response) :
  not_429 c -> (forall e, not_429 (h e)) -> not_429 (try_catch c h).
Proof.
  intros Hc Hh w. unfold try_catch. specialize (Hc w).
  destruct (c w) as [[r|e] w']; [exact Hc | apply Hh].
Qed.

Ltac answers :=
  repeat first
    [ apply not_429_try_catch; [| intros ?]
    | apply not_429_bind; intros ?
    | apply not_429_ret; discriminate
    | apply not_429_throw
    | match goal with
      | |- not_429 (if ?b then _ else _) => destruct b
      | |- not_429 (match ?x with _ => _ end) => destruct x
      end ].

Lemma route_not_429 (req : Request) : not_429 (route req).
Proof.
  unfold route.
  destruct (method req); repeat case_match;
    unfold health, api_status, api_metrics, get_users, post_users, not_found,
      JSON_parse_or_throw;
    cbv zeta; answers.
Qed.

Lemma run_route (req : Request) (w : World) :
  hits (snd (run (route req) w)) = hits w /\ status (fst (run (route req) w)) <> 429.
Proof.
  pose proof (route_keeps_hits req w) as H1. pose proof (route_not_429 req w) as H2.
  unfold run. destruct (route req w) as [[r|e] w']; cbn [fst snd] in *.
  - split; assumption.
  - split; [exact H1 | discriminate].
Qed.

Lemma serve_cons (a : Arrival) (l : list Arrival) (w : World) :
  serve (a :: l) w =
  (fst (arrive a w) :: fst (serve l (snd (arrive a w))), snd (serve l (snd (arrive a w)))).
Proof.
  cbn [serve]. fold (arrive a w). destruct (arrive a w) as [r w1]. cbn [fst snd].
  destruct (serve l w1) as [rs w2]. reflexivity.
Qed.

Lemma arrive_not_counted (i : string) (a : Arrival) (w : World) :
  counted i a = false -> hits (snd (arrive a w)) !! i = hits w !! i.
Proof.
  unfold counted, arrive, app. intros H.
  destruct (under_api (path (request a))) eqn:E.
  - cbn [andb] in H. apply String.eqb_neq in H.
    unfold limiter. world_simpl.
    destruct (hits w !! ip (request a)) as [[s c]|];
      [destruct (arrives_at a <? s + Limit.windowMs) |];
      try destruct (c + 1 <=? Limit.max);
      rewrite ?(proj1 (run_route _ _)); world_simpl;
      now rewrite lookup_insert_ne.
  - now rewrite (proj1 (run_route _ _)).
Qed.

Lemma arrive_in_window (i : string) (a : Arrival) (w : World) (s c : Z) :
  counted i a = true -> hits w !! i = Some (s, c) ->
  arrives_at a < s + Limit.windowMs ->
  hits (snd (arrive a w)) !! i = Some (s, c + 1) /\
  (status (fst (arrive a w)) = 429 <-> Limit.max < c + 1) /\
  (Limit.max < c + 1 -> fst (arrive a w) = too_many_requests).
Proof.
  unfold counted, arrive, app. intros H Hw Ht.
  apply andb_true_iff in H as [-> H]. apply String.eqb_eq in H. subst i.
  unfold limiter. world_simpl. rewrite Hw.
  destruct (Z.ltb_spec (arrives_at a) (s + Limit.windowMs)); [| lia].
  destruct (Z.leb_spec (c + 1) Limit.max).
  - destruct (run_route (request a)
               (set_hits (insert (ip (request a)) (s, c + 1))
                  (at_time (arrives_at a) (stores a) w))) as [-> Hs].
    world_simpl. rewrite lookup_insert_eq. split; [reflexivity |].
    split; [split; [contradiction | lia] | lia].
  - world_simpl. rewrite lookup_insert_eq. split; [reflexivity |].
    split; [split; [lia | reflexivity] | reflexivity].
Qed.

Lemma arrive_new_window (i : string) (a : Arrival) (w : World) :
  counted i a = true -> no_window i w (arrives_at a) ->
  hits (snd (arrive a w)) !! i = Some (arrives_at a, 1) /\
  status (fst (arrive a w)) <> 429.
Proof.
  unfold counted, arrive, app, no_window. intros H Hw.
  apply andb_true_iff in H as [-> H]. apply String.eqb_eq in H. subst i.
  unfold limiter. world_simpl.
  destruct (hits w !! ip (request a)) as [[s c]|].
  - destruct (Z.ltb_spec (arrives_at a) (s + Limit.windowMs)); [lia |].
    destruct (run_route (request a)
               (set_hits (insert (ip (request a)) (arrives_at a, 1))
                  (at_time (arrives_at a) (stores a) w))) as [-> Hs].
    world_simpl. now rewrite lookup_insert_eq.
  - destruct (run_route (request a)
               (set_hits (insert (ip (request a)) (arrives_at a, 1))
                  (at_time (arrives_at a) (stores a) w))) as [-> Hs].
    world_simpl. now rewrite lookup_insert_eq.
Qed.

Lemma count_take_S (i : string) (a : Arrival) (l : list Arrival) (k : nat) :
  count i (take (S (S k)) (a :: l)) = (if counted i a then 1 else 0) + count i (take (S k) l).
Proof. reflexivity. Qed.

(** Inside a window the limiter counts, and rejects from the first request
    that takes the count over the limit. *)
Lemma serve_in_window (i : string) (s : Z) (l : list Arrival) :
  forall (w : World) (c : Z),
    hits w !! i = Some (s, c) ->
    Forall (fun a => counted i a = true -> arrives_at a < s + Limit.windowMs) l ->
    hits (snd (serve l w)) !! i = Some (s, c + count i l) /\
    forall (k : nat) (a : Arrival),
      l !! k = Some a -> counted i a = true ->
      exists r, fst (serve l w) !! k = Some r /\
        (status r = 429 <-> Limit.max < c + count i (take (S k) l)) /\
        (Limit.max < c + count i (take (S k) l) -> r = too_many_requests).
Proof.
  induction l as [|a l IH]; intros w c Hw HF.
  - cbn [serve snd count]. rewrite Z.add_0_r. split; [exact Hw |].
    intros k a Hk. discriminate Hk.
  - apply Forall_cons in HF as [Ha HF]. rewrite serve_cons. cbn [fst snd count].
    destruct (counted i a) eqn:E.
    + destruct (arrive_in_window i a w s c E Hw (Ha eq_refl)) as (Hw1 & Hr & Hr').
      destruct (IH (snd (arrive a w)) (c + 1) Hw1 HF) as [Hend Hall].
      split; [rewrite Hend; f_equal; f_equal; lia |].
      intros [|k] b Hk Hb.
      * injection Hk as <-. exists (fst (arrive a w)). split; [reflexivity |].
        cbn [take count]. rewrite E, Z.add_0_r. split; assumption.
      * destruct (Hall k b Hk Hb) as (r & Hr1 & Hr2 & Hr3).
        exists r. split; [exact Hr1 |]. rewrite count_take_S, E.
        replace (c + (1 + count i (take (S k) l))) with (c + 1 + count i (take (S k) l)) by lia.
        split; assumption.
    + rewrite <- (arrive_not_counted i a w E) in Hw.
      destruct (IH (snd (arrive a w)) c Hw HF) as [Hend Hall].
      split; [rewrite Hend; f_equal; f_equal; lia |].
      intros [|k] b Hk Hb.
      * injection Hk as <-. congruence.
      * destruct (Hall k b Hk Hb) as (r & Hr1 & Hr2 & Hr3).
        exists r. split; [exact Hr1 |]. rewrite count_take_S, E, Z.add_0_l.
        split; assumption.
Qed.

End Limiter.

(** No error escapes a route handler: the branch of [run] for the
    error-handling middleware is never taken. *)
Lemma route_answers (req : Request) : never_throws (route req).
Proof.
  assert (H : forall c h, (forall e, never_throws (h e)) -> never_throws (try_catch c h)).
  { intros c h Hh w. unfold try_catch. destruct (c w) as [[r|e] w'']; [eauto | apply Hh]. }
  unfold route.
  destruct (method req); repeat case_match;
    try (intros w; eexists _, _; reflexivity);
    apply H; intros e w; eexists _, _; reflexivity.
Qed.

(** Claim C2: for any identity, with the window of 15 minutes and the limit
    of 100 that [server.js] sets on every path under [/api/]: from the
    request that opens a window, the requests of that identity that arrive
    before the window is over are counted, whatever other traffic comes in
    between; the first 100 are let through to their route, the 101st and
    every later one get 429 with the fixed message; and the first request
    after the window is over is let through again. *)
Theorem fixed_window_limit (i : string) (w : World) (first next : Arrival)
    (others : list Arrival) :
  counted i first = true ->
  no_window i w (arrives_at first) ->
  Forall (fun a => counted i a = true ->
                   arrives_at a < arrives_at first + Limit.windowMs) others ->
  counted i next = true ->
  arrives_at first + Limit.windowMs <= arrives_at next ->
  let '(answers, w') := serve (first :: others) w in
  (forall (k : nat) (a : Arrival),
     (first :: others) !! k = Some a -> counted i a = true ->
     exists r, answers !! k = Some r /\
       (status r = 429 <-> 100 < count i (take (S k) (first :: others))) /\
       (100 < count i (take (S k) (first :: others)) ->
        r = {| status := 429;
               payload := "Too many requests from this IP, please try again later." |})) /\
  status (fst (arrive next w')) <> 429.
Proof.
  intros Hfirst Hnone Hothers Hnext Hlater.
  rewrite serve_cons.
  destruct (arrive_new_window i first w Hfirst Hnone) as [Hw1 Hr1].
  destruct (serve_in_window i (arrives_at first) others (snd (arrive first w)) 1 Hw1 Hothers)
    as [Hend Hall].
  split.
  - intros [|k] a Hk Ha.
    + injection Hk as <-. exists (fst (arrive first w)). split; [reflexivity |].
      cbn [take count]. rewrite Hfirst, Z.add_0_r. split; [split |]; intros; [contradiction | lia | lia].
    + destruct (Hall k a Hk Ha) as (r & H1 & H2 & H3).
      exists r. split; [exact H1 |]. rewrite count_take_S, Hfirst.
      split; [exact H2 | exact H3].
  - apply (arrive_new_window i next); [exact Hnext |].
    unfold no_window. rewrite Hend. exact Hlater.
Qed.

Lemma fixed_window_limit_witness :
  let '(answers, w') := serve (opening :: replicate 100 repeated) boot in
  (forall (k : nat) (a : Arrival),
     (opening :: replicate 100 repeated) !! k = Some a -> counted "203.0.113.7" a = true ->
     exists r, answers !! k = Some r /\
       (status r = 429 <->
        100 < count "203.0.113.7" (take (S k) (opening :: replicate 100 repeated))) /\
       (100 < count "203.0.113.7" (take (S k) (opening :: replicate 100 repeated)) ->
        r = {| status := 429;
               payload := "Too many requests from this IP, please try again later." |})) /\
  status (fst (arrive later w')) <> 429.
Proof.
  apply (fixed_window_limit "203.0.113.7" boot opening later (replicate 100 repeated)).
  - reflexivity.
  - exact I.
  - apply Forall_replicate. intros _. reflexivity.
  - reflexivity.
  - vm_compute. discriminate.
Defined.

(** In that run the 100th request gets the cached snapshot and the 101st
    gets the rate-limit answer. *)
Example burst_of_101 :
  let answers := fst (serve (opening :: replicate 100 repeated) boot) in
  (status <$> answers !! 99%nat) = Some 200 /\
  answers !! 100%nat = Some too_many_requests.
Proof. vm_compute. split; reflexivity. Qed.

(** * Further properties of the server *)

(** ** Listing the users *)

Lemma get_users_ok (w : World) :
  outcome w PgQuery = None ->
  run get_users w =
  (res_json 200 (JArr (List.map listed_row (take 10 (order_by_created_at_desc (users w))))),
   add_call PgQuery w).
Proof.
  intros H. unfold get_users, pool_query_select_users. unfold_handler. rewrite H. reflexivity.
Qed.

Lemma get_users_fails (w : World) (e : string) :
  outcome w PgQuery = Some e ->
  run get_users w =
  (internal_server_error, add_log ("Users endpoint error", e) (add_call PgQuery w)).
Proof.
  intros H. unfold get_users, pool_query_select_users. unfold_handler. rewrite H. reflexivity.
Qed.

Lemma insert_desc_perm (r : Row) (l : list Row) : insert_desc r l ≡ₚ r :: l.
Proof.
  induction l as [|x l IH]; [reflexivity |]. cbn [insert_desc].
  destruct (row_created_at x <? row_created_at r); [reflexivity |].
  rewrite IH. apply Permutation_swap.
Qed.

Lemma order_perm_acc (l acc : list Row) :
  fold_left (fun acc r => insert_desc r acc) l acc ≡ₚ l ++ acc.
Proof.
  revert acc. induction l as [|x l IH]; intros acc; [reflexivity |].
  cbn [fold_left]. rewrite IH, insert_desc_perm. cbn [app].
  symmetry. apply Permutation_middle.
Qed.

Lemma order_perm (l : list Row) : order_by_created_at_desc l ≡ₚ l.
Proof. unfold order_by_created_at_desc. rewrite order_perm_acc. now rewrite app_nil_r. Qed.

Lemma insert_desc_sorted (r : Row) (l : list Row) :
  newest_first l -> newest_first (insert_desc r l).
Proof.
  unfold newest_first. induction l as [|x l IH]; intros Hs; cbn [insert_desc].
  - repeat constructor.
  - apply StronglySorted_cons in Hs as [Hx Hs].
    destruct (Z.ltb_spec (row_created_at x) (row_created_at r)).
    + apply StronglySorted_cons. split.
      * constructor; [lia |]. eapply Forall_impl; [exact Hx |]. intros y Hy. cbn beta in *. lia.
      * apply StronglySorted_cons. split; assumption.
    + apply StronglySorted_cons. split; [| apply IH, Hs].
      rewrite insert_desc_perm. constructor; [lia | exact Hx].
Qed.

Lemma order_sorted_acc (l acc : list Row) :
  newest_first acc -> newest_first (fold_left (fun acc r => insert_desc r acc) l acc).
Proof.
  revert acc. induction l as [|x l IH]; intros acc Hs; [exact Hs |].
  cbn [fold_left]. apply IH, insert_desc_sorted, Hs.
Qed.

Lemma order_sorted (l : list Row) : newest_first (order_by_created_at_desc l).
Proof. apply order_sorted_acc. constructor. Qed.

(** X1: when the query succeeds, [GET /api/users] answers 200 with an array
    of rows of the table: the ten newest (all of them when the table has
    fewer), newest first, none listed more often than it is in the table, and
    no row that is left out is newer than a row that is listed. *)
Theorem users_listing (w : World) :
  outcome w PgQuery = None ->
  exists rows : list Row,
    fst (run get_users w) = res_json 200 (JArr (List.map listed_row rows)) /\
    length rows = (length (users w) `min` 10)%nat /\
    newest_first rows /\
    rows ⊆+ users w /\
    forall x y, x ∈ users w -> x ∉ rows -> y ∈ rows -> row_created_at x <= row_created_at y.
Proof.
  intros H. exists (take 10 (order_by_created_at_desc (users w))).
  rewrite (get_users_ok w H). cbn [fst].
  pose proof (order_perm (users w)) as Hp. pose proof (order_sorted (users w)) as Hs.
  split; [reflexivity |]. split; [| split; [| split]].
  - rewrite length_take, Hp. lia.
  - unfold newest_first in *. rewrite <- (take_drop 10 (order_by_created_at_desc (users w))) in Hs.
    now apply StronglySorted_app_1_l in Hs.
  - rewrite <- Hp at 2. apply submseteq_take.
  - intros x y Hx Hnx Hy.
    rewrite <- Hp, <- (take_drop 10 (order_by_created_at_desc (users w))) in Hx.
    apply elem_of_app in Hx as [Hx | Hx]; [contradiction |].
    unfold newest_first in Hs.
    rewrite <- (take_drop 10 (order_by_created_at_desc (users w))) in Hs.
    apply (StronglySorted_app_1_elem_of _ _ _ y x Hs Hy Hx).
Qed.

Lemma users_listing_witness :
  exists rows : list Row,
    fst (run get_users boot) = res_json 200 (JArr (List.map listed_row rows)) /\
    length rows = (length (users boot) `min` 10)%nat /\
    newest_first rows /\
    rows ⊆+ users boot /\
    forall x y, x ∈ users boot -> x ∉ rows -> y ∈ rows -> row_created_at x <= row_created_at y.
Proof. apply (users_listing boot). reflexivity. Defined.

(** X2: [GET /api/users] only reads: it makes one query and nothing else,
    and leaves the table, its sequence and the cache as they were; when the
    query fails it answers 500 with the generic body. *)
Theorem users_listing_reads_only (w : World) :
  issues get_users w [PgQuery] /\
  users (snd (run get_users w)) = users w /\
  users_id_seq (snd (run get_users w)) = users_id_seq w /\
  redis (snd (run get_users w)) = redis w /\
  (outcome w PgQuery <> None -> fst (run get_users w) = internal_server_error).
Proof.
  unfold issues. destruct (outcome w PgQuery) as [e|] eqn:E.
  - rewrite (get_users_fails w e E). repeat split.
  - rewrite (get_users_ok w E). repeat split. congruence.
Qed.

Lemma users_listing_reads_only_witness :
  fst (run get_users (at_time 1752051530123 db_down boot)) = internal_server_error.
Proof.
  apply (proj2 (proj2 (proj2 (proj2
    (users_listing_reads_only (at_time 1752051530123 db_down boot)))))).
  discriminate.
Defined.

(** ** What the handlers leave alone *)

Section Frames.

Context (R : World -> World -> Prop) `{!Frame R}.

Lemma within_ret {A : Type} (a : A) : within R (mret a).
Proof. intros w. apply frame_refl. Qed.

Lemma within_throw {A : Type} (e : string) : within R (@throw A e).
Proof. intros w. apply frame_refl. Qed.

Lemma within_get_world : within R get_world.
Proof. intros w. apply frame_refl. Qed.

Lemma within_call (op : Op) : within R (call op).
Proof. intros w. unfold call. destruct (outcome w op); apply frame_call. Qed.

Lemma within_random : within R Math_random.
Proof. intros w. apply frame_draws. Qed.

Lemma within_logger_error `{!Logging R} (label e : string) :
  within R (logger_error label e).
Proof. intros w. apply frame_log. Qed.

Lemma within_modify (f : World -> World) : (forall w, R w (f w)) -> within R (modify f).
Proof. intros H w. apply H. Qed.

Lemma within_bind {A B : Type} (c : M A) (f : A -> M B) :
  within R c -> (forall a, within R (f a)) -> within R (c ≫= f).
Proof.
  intros Hc Hf w. unfold mbind, M_bind. specialize (Hc w).
  destruct (c w) as [[a|e] w']; cbn [snd] in *; [| exact Hc].
  eapply frame_trans; [exact Hc | apply Hf].
Qed.

Lemma within_try_catch {A : Type} (c : M A) (h : string -> M A) :
  within R c -> (forall e, within R (h e)) -> within R (try_catch c h).
Proof.
  intros Hc Hh w. unfold try_catch. specialize (Hc w).
  destruct (c w) as [[a|e] w']; cbn [snd] in *; [exact Hc |].
  eapply frame_trans; [exact Hc | apply Hh].
Qed.

Lemma within_run `{!Logging R} (h : M Response) (w : World) :
  within R h -> R w (snd (run h w)).
Proof.
  intros Hh. unfold run. specialize (Hh w).
  destruct (h w) as [[r|e] w']; cbn [snd] in *; [exact Hh |].
  eapply frame_trans; [exact Hh | apply frame_log].
Qed.

End Frames.

Ltac within_step :=
  lazymatch goal with
  | |- Frame _ => apply _
  | |- Logging _ => apply _
  | |- forall _, _ => intros ?
  | |- within _ (try_catch _ _) => apply within_try_catch
  | |- within _ (_ ≫= _) => apply within_bind
  | |- within _ (mret _) => apply within_ret
  | |- within _ (throw _) => apply within_throw
  | |- within _ get_world => apply within_get_world
  | |- within _ (call _) => apply within_call
  | |- within _ Math_random => apply within_random
  | |- within _ (logger_error _ _) => apply within_logger_error
  | |- within _ (modify _) => apply within_modify
  | |- within _ (if ?b then _ else _) => destruct b
  | |- within _ (match ?x with _ => _ end) => destruct x
  end.

Ltac within_steps := repeat within_step.

Ltac unfold_routes :=
  unfold health, api_status, api_metrics, get_users, post_users, not_found,
    fresh_metrics, pool_query_select_users, pool_query_insert_user, redis_get,
    redis_setEx, redis_del, redis_ping, pool_query_probe,
    Date_now_toISOString, JSON_parse_or_throw;
  cbv zeta.

#[local] Instance same_table_frame : Frame same_table.
Proof.
  split; unfold same_table; try (intros; split; reflexivity).
  intros w1 w2 w3 [H1 H2] [H3 H4]. split; congruence.
Qed.

#[local] Instance same_table_logging : Logging same_table.
Proof. intros e w. split; reflexivity. Qed.

#[local] Instance same_key_frame (k : string) : Frame (same_key k).
Proof.
  split; unfold same_key; try (intros; reflexivity).
  intros w1 w2 w3 H1 H2. congruence.
Qed.

#[local] Instance same_key_logging (k : string) : Logging (same_key k).
Proof. intros e w. reflexivity. Qed.

#[local] Instance same_log_frame : Frame same_log.
Proof.
  split; unfold same_log; try (intros; split; reflexivity).
  intros w1 w2 w3 [H1 H2] [H3 H4]. split; congruence.
Qed.

(** The handlers that read: they change neither the table nor its
    sequence. *)
Lemma readers_keep_table :
  within same_table health /\ within same_table api_status /\
  within same_table api_metrics /\ within same_table get_users /\
  within same_table not_found.
Proof.
  split; [| split; [| split; [| split]]];
    unfold_routes; within_steps; split; reflexivity.
Qed.

(** ** The table across requests *)

Lemma body_cases (req : Request) :
  (truthy (body_name (body req)) = false \/ truthy (body_email (body req)) = false) \/
  exists name email, well_formed req name email.
Proof.
  destruct (truthy (body_name (body req))) eqn:E1; [| left; now left].
  destruct (truthy (body_email (body req))) eqn:E2; [| left; now right].
  apply truthy_inv in E1 as (name & E1 & Hn). apply truthy_inv in E2 as (email & E2 & He).
  right. exists name, email. repeat split; assumption.
Qed.

Lemma post_users_table_step (req : Request) (w : World) :
  table_step w (snd (run (post_users req) w)).
Proof.
  destruct (body_cases req) as [H | (name & email & Hwf)].
  - rewrite (post_users_missing req w H). left. split; [reflexivity | now left].
  - rewrite (post_users_cases req w name email Hwf).
    destruct (outcome w PgQuery); [left; split; [reflexivity | now left] |].
    destruct (too_long name email); [left; split; [reflexivity | now left] |].
    destruct (taken w email) eqn:Et; [left; split; [reflexivity | now right] |].
    right. exists name, email.
    destruct (outcome w RedisDel); repeat split; assumption.
Qed.

Lemma route_table_step (req : Request) (w : World) :
  table_step w (snd (run (route req) w)).
Proof.
  destruct readers_keep_table as (Hh & Hs & Hm & Hu & Hn).
  assert (Hread : forall h, within same_table h -> table_step w (snd (run h w))).
  { intros h Hw. destruct (within_run same_table h w Hw) as [H1 H2].
    left. split; [exact H1 | now left]. }
  unfold route. destruct (method req); repeat case_match;
    first [apply post_users_table_step | apply Hread; assumption].
Qed.

Lemma app_table_step (req : Request) (w : World) : table_step w (snd (app req w)).
Proof.
  unfold app. destruct (under_api (path req)); [| apply route_table_step].
  unfold limiter.
  destruct (hits w !! ip req) as [[s c]|];
    [destruct (now w <? s + Limit.windowMs); [destruct (c + 1 <=? Limit.max) |] |];
    first [apply (route_table_step req (set_hits _ w))
          | left; split; [reflexivity | now left]].
Qed.

Lemma table_step_ok (w w' : World) : table_step w w' -> table_ok w -> table_ok w'.
Proof.
  intros [[Hu Hs] | (name & email & Ht & Hu & Hs)] (He & Hi & Hlt); unfold table_ok; rewrite Hu.
  - repeat split; [exact He | exact Hi |].
    eapply Forall_impl; [exact Hlt |]. intros r Hr. cbn beta in *. lia.
  - rewrite !fmap_app, !Forall_app. cbn [fmap list_fmap row_email row_id].
    repeat split.
    + apply NoDup_app. split; [exact He |]. split; [| apply NoDup_singleton].
      intros e Hin Hin'. apply list_elem_of_singleton in Hin'. subst e.
      apply list_elem_of_fmap in Hin as (r & Hr1 & Hr2).
      unfold taken in Ht. apply Bool.not_true_iff_false in Ht. apply Ht.
      apply existsb_exists. exists r. split; [now apply list_elem_of_In |].
      apply String.eqb_eq. congruence.
    + apply NoDup_app. split; [exact Hi |]. split; [| apply NoDup_singleton].
      intros i Hin Hin'. apply list_elem_of_singleton in Hin'. subst i.
      apply list_elem_of_fmap in Hin as (r & Hr1 & Hr2).
      rewrite Forall_forall in Hlt. specialize (Hlt r Hr2). lia.
    + eapply Forall_impl; [exact Hlt |]. intros r Hr. cbn beta in *. lia.
    + constructor; [cbn; lia | constructor].
Qed.

Lemma table_step_grows (w w' : World) :
  table_step w w' ->
  users w `prefix_of` users w' /\ (length (users w') <= S (length (users w)))%nat.
Proof.
  intros [[Hu _] | (name & email & _ & Hu & _)]; rewrite Hu.
  - split; [reflexivity | lia].
  - split; [now apply prefix_app_r | rewrite length_app; cbn; lia].
Qed.

(** X3: table [users] only grows, by at most one row per request: whatever
    requests arrive, in whatever order and with whatever failures of the
    stores, the rows that were in the table stay where they are, unchanged,
    and new rows are added after them. *)
Theorem users_only_grow (l : list Arrival) (w : World) :
  users w `prefix_of` users (snd (serve l w)) /\
  (length (users (snd (serve l w))) <= length (users w) + length l)%nat.
Proof.
  revert w. induction l as [|a l IH]; intros w.
  - cbn. split; [reflexivity | lia].
  - rewrite serve_cons. cbn [snd].
    destruct (table_step_grows _ _
                (app_table_step (request a) (at_time (arrives_at a) (stores a) w)))
      as [Hp Hl].
    destruct (IH (snd (arrive a w))) as [Hp' Hl'].
    unfold arrive in *. cbn [users at_time] in Hp, Hl.
    split; [etrans; eassumption | cbn [length]; lia].
Qed.

(** X4: the constraints of table [users] are kept by the server: if emails
    and ids are unique and every id is below the sequence, they still are
    after any sequence of requests. *)
Theorem table_constraints_kept (l : list Arrival) (w : World) :
  table_ok w -> table_ok (snd (serve l w)).
Proof.
  revert w. induction l as [|a l IH]; intros w Hok; [exact Hok |].
  rewrite serve_cons. cbn [snd]. apply IH.
  apply (table_step_ok (at_time (arrives_at a) (stores a) w)); [apply app_table_step |].
  exact Hok.
Qed.

(** A creation followed by a listing, on the database that the migration
    fills. *)
Lemma table_constraints_kept_witness :
  table_ok (snd (serve [{| arrives_at := 1752051531000; stores := all_up;
                           request := POST_users "203.0.113.7" (Some "Dana")
                                        (Some "dana@example.com") |};
                        {| arrives_at := 1752051532000; stores := all_up;
                           request := GET_ "/api/users" "203.0.113.7" |}] boot)).
Proof.
  apply table_constraints_kept.
  split; [| split].
  - apply (bool_decide_unpack _). vm_compute. exact I.
  - apply (bool_decide_unpack _). vm_compute. exact I.
  - repeat constructor.
Defined.

(** ** Creating users: validation, the new row, the cache *)



Lemma order_snoc_newest (l : list Row) (r : Row) :
  Forall (fun x => row_created_at x < row_created_at r) l ->
  order_by_created_at_desc (l ++ [r])%list = r :: order_by_created_at_desc l.
Proof.
  intros H. unfold order_by_created_at_desc. rewrite fold_left_app. cbn [fold_left].
  fold (order_by_created_at_desc l).
  rewrite <- (order_perm l) in H.
  destruct (order_by_created_at_desc l) as [|x s]; [reflexivity |].
  apply Forall_cons in H as [Hx _]. cbn [insert_desc].
  destruct (Z.ltb_spec (row_created_at x) (row_created_at r)); [reflexivity | lia].
Qed.

(** X6: for a name and an email of at most 255 bytes each, the user that a
    201 reports is in the table and is listed: the response carries the row
    as inserted (the next id of the sequence, the name and email of the
    body, the instant of the request), the row is the last of the table,
    and, when every older row was created before that instant, the next
    [GET /api/users] that reaches the database lists it first. *)
Theorem created_user_is_listed (req : Request) (w : World) (name email : string)
    (t : Z) (o : Op -> option string) :
  well_formed req name email ->
  too_long name email = false ->
  status (fst (run (post_users req) w)) = 201 ->
  Forall (fun x => row_created_at x < now w) (users w) ->
  o PgQuery = None ->
  let row := new_row w name email in
  let w1 := snd (run (post_users req) w) in
  fst (run (post_users req) w) = res_json 201 (returned_row row) /\
  users w1 = (users w ++ [row])%list /\
  exists others : list Row,
    fst (run get_users (at_time t o w1)) =
      res_json 200 (JArr (listed_row row :: List.map listed_row others)).
Proof.
  intros Hwf Hlen H Hold Ho. cbn zeta.
  rewrite (post_users_cases req w name email Hwf) in H |- *.
  rewrite Hlen in H |- *.
  destruct (outcome w PgQuery); [discriminate H |].
  destruct (taken w email); [discriminate H |].
  destruct (outcome w RedisDel); [discriminate H |].
  cbn [fst snd]. split; [reflexivity |]. split; [reflexivity |].
  exists (take 9 (order_by_created_at_desc (users w))).
  rewrite get_users_ok by exact Ho. cbn [fst].
  unfold after_insert. world_simpl.
  rewrite order_snoc_newest by exact Hold. reflexivity.
Qed.

Lemma created_user_is_listed_witness :
  let req := POST_users "203.0.113.7" (Some "Dana") (Some "dana@example.com") in
  let row := new_row boot "Dana" "dana@example.com" in
  let w1 := snd (run (post_users req) boot) in
  fst (run (post_users req) boot) = res_json 201 (returned_row row) /\
  users w1 = (users boot ++ [row])%list /\
  exists others : list Row,
    fst (run get_users (at_time 1752051540000 all_up w1)) =
      res_json 200 (JArr (listed_row row :: List.map listed_row others)).
Proof.
  apply (created_user_is_listed
           (POST_users "203.0.113.7" (Some "Dana") (Some "dana@example.com"))
           boot "Dana" "dana@example.com" 1752051540000 all_up).
  - repeat split; discriminate.
  - reflexivity.
  - reflexivity.
  - repeat constructor.
  - reflexivity.
Defined.

(** X7: [POST /api/users] touches the cache only to delete the metrics key,
    and only once the row is inserted: no other key ever changes (the status
    snapshot survives a creation), and when the insert does not happen (400,
    or 500 from a failing or rejected insert) the cache is exactly as it
    was. *)
Theorem create_cache_effect (req : Request) (w : World) :
  let w1 := snd (run (post_users req) w) in
  (forall k, k <> metrics_key -> redis w1 !! k = redis w !! k) /\
  (users w1 = users w -> redis w1 = redis w).
Proof.
  cbn zeta. destruct (body_cases req) as [H | (name & email & Hwf)].
  - rewrite (post_users_missing req w H). split; reflexivity.
  - rewrite (post_users_cases req w name email Hwf).
    destruct (outcome w PgQuery); [split; reflexivity |].
    destruct (too_long name email); [split; reflexivity |].
    destruct (taken w email); [split; reflexivity |].
    destruct (outcome w RedisDel).
    + split; reflexivity.
    + unfold after_insert. world_simpl. split.
      * intros k Hk. now apply lookup_delete_ne.
      * intros Hu. apply (f_equal length) in Hu. rewrite length_app in Hu.
        cbn in Hu. lia.
Qed.

Lemma create_cache_effect_witness :
  let req := POST_users "203.0.113.7" (Some "Dana") (Some "dana@example.com") in
  let w := snd (run api_status boot) in
  redis (snd (run (post_users req) w)) !! status_key = redis w !! status_key.
Proof.
  apply (proj1 (create_cache_effect
                  (POST_users "203.0.113.7" (Some "Dana") (Some "dana@example.com"))
                  (snd (run api_status boot)))).
  discriminate.
Defined.

(** ** The two cache keys *)

Lemma same_key_insert (k key : string) (v : string * Z) (w : World) :
  k <> key -> same_key k w (set_redis (insert key v) w).
Proof. intros H. unfold same_key. world_simpl. now apply lookup_insert_ne. Qed.

Lemma same_key_delete (k key : string) (w : World) :
  k <> key -> same_key k w (set_redis (delete key) w).
Proof. intros H. unfold same_key. world_simpl. now apply lookup_delete_ne. Qed.

Lemma same_key_users (k : string) (f : list Row -> list Row) (s : Z -> Z) (w : World) :
  same_key k w (set_users f s w).
Proof. reflexivity. Qed.

Lemma handlers_keep_keys (k : string) :
  within (same_key k) health /\ within (same_key k) get_users /\
  within (same_key k) not_found /\
  (k <> status_key -> within (same_key k) api_status) /\
  (k <> metrics_key -> within (same_key k) api_metrics) /\
  (k <> metrics_key -> forall req, within (same_key k) (post_users req)).
Proof.
  split; [| split; [| split; [| split; [| split]]]].
  - unfold_routes. within_steps.
  - unfold_routes. within_steps.
  - unfold_routes. within_steps.
  - intros Hk. unfold_routes. within_steps. apply same_key_insert, Hk.
  - intros Hk. unfold_routes. within_steps. apply same_key_insert, Hk.
  - intros Hk req. unfold_routes. within_steps;
      first [apply same_key_users | apply same_key_delete, Hk].
Qed.

(** X8: the server uses two cache keys and keeps them apart.  No request
    changes any other key; no request to a path other than [/api/status]
    changes the status snapshot; no request to a path other than
    [/api/metrics] and [/api/users] changes the metrics snapshot.  Requests
    that the limiter rejects are included. *)
Theorem cache_keys_are_separate (req : Request) (w : World) :
  let w1 := snd (app req w) in
  (forall k, k <> status_key -> k <> metrics_key -> redis w1 !! k = redis w !! k) /\
  (path req <> "/api/status" -> redis w1 !! status_key = redis w !! status_key) /\
  (path req <> "/api/metrics" -> path req <> "/api/users" ->
   redis w1 !! metrics_key = redis w !! metrics_key).
Proof.
  assert (Hroute : forall k w0,
            (k = status_key -> path req <> "/api/status") ->
            (k = metrics_key -> path req <> "/api/metrics" /\ path req <> "/api/users") ->
            same_key k w0 (snd (run (route req) w0))).
  { intros k w0 Hs Hm. apply within_run; [apply _ | apply _ |].
    destruct (handlers_keep_keys k) as (Hh & Hu & Hn & Hst & Hme & Hpo).
    unfold route. destruct (method req);
      repeat (match goal with
              | |- context [String.eqb (path req) ?p] =>
                  destruct (String.eqb_spec (path req) p)
              end);
      first [ exact Hh | exact Hu | exact Hn
            | apply Hst; intros ->; now apply Hs
            | apply Hme; intros ->; now destruct Hm
            | apply Hpo; intros ->; now destruct Hm ]. }
  assert (Happ : forall k,
            (k = status_key -> path req <> "/api/status") ->
            (k = metrics_key -> path req <> "/api/metrics" /\ path req <> "/api/users") ->
            redis (snd (app req w)) !! k = redis w !! k).
  { intros k Hs Hm. unfold app. destruct (under_api (path req)); [| now apply Hroute].
    unfold limiter.
    destruct (hits w !! ip req) as [[s c]|];
      [destruct (now w <? s + Limit.windowMs); [destruct (c + 1 <=? Limit.max) |] |];
      first [apply (Hroute k (set_hits _ w)); assumption | reflexivity]. }
  cbn zeta. split; [| split].
  - intros k H1 H2. apply Happ; intros ->; contradiction.
  - intros H. apply Happ; [intros _; exact H | discriminate].
  - intros H1 H2. apply Happ; [discriminate | intros _; split; assumption].
Qed.

Lemma cache_keys_are_separate_witness :
  let w := snd (run api_status boot) in
  redis (snd (app (GET_ "/api/metrics" "203.0.113.7") w)) !! status_key =
  redis w !! status_key.
Proof.
  apply (proj1 (proj2 (cache_keys_are_separate (GET_ "/api/metrics" "203.0.113.7")
                         (snd (run api_status boot))))).
  discriminate.
Defined.

(** ** The cached metrics, and the end of a snapshot's time *)



Lemma expired_is_a_miss (w : World) (key v : string) (expiry : Z) :
  redis w !! key = Some (v, expiry) -> expiry < now w -> truthy (live w key) = false.
Proof.
  intros H Ht. unfold live. rewrite H.
  destruct (Z.leb_spec (now w) expiry); [lia | reflexivity].
Qed.



(** X10: a status snapshot is not served once its 60 seconds are over: the
    first [GET /api/status] that arrives later queries the relational store
    again, returns a snapshot with its own timestamp and stores it for the
    next 60 seconds. *)
Theorem status_snapshot_expires (w : World) (t : Z) (o : Op -> option string) :
  outcome w RedisGet = None -> truthy (live w status_key) = false ->
  outcome w PgQuery = None -> outcome w RedisSetEx = None ->
  now w + 60 * 1000 < t ->
  o RedisGet = None -> o PgQuery = None -> o RedisSetEx = None ->
  let w1 := at_time t o (snd (run api_status w)) in
  fst (run api_status w1) = res_json 200 (statusData (Clock.toISOString t)) /\
  issues api_status w1 [RedisGet; PgQuery; RedisSetEx] /\
  redis (snd (run api_status w1)) !! status_key =
    Some (JSON_stringify (statusData (Clock.toISOString t)), t + 60 * 1000).
Proof.
  intros Hget Hmiss Hpg Hset Ht Hoget Hopg Hoset. cbn zeta.
  rewrite (status_miss_ok w Hget Hmiss Hpg Hset). cbn [snd].
  set (w1 := at_time t o _).
  assert (Hc : redis w1 !! status_key =
               Some (JSON_stringify (fresh_status w), now w + 60 * 1000)).
  { unfold w1. world_simpl. apply lookup_insert_eq. }
  unfold issues.
  rewrite (status_miss_ok w1 Hoget (expired_is_a_miss _ _ _ _ Hc Ht) Hopg Hoset).
  world_simpl. repeat split.
  - now rewrite <- !app_assoc.
  - apply lookup_insert_eq.
Qed.

Lemma status_snapshot_expires_witness :
  let w1 := at_time 1752051590124 all_up (snd (run api_status boot)) in
  fst (run api_status w1) = res_json 200 (statusData (Clock.toISOString 1752051590124)) /\
  issues api_status w1 [RedisGet; PgQuery; RedisSetEx] /\
  redis (snd (run api_status w1)) !! status_key =
    Some (JSON_stringify (statusData (Clock.toISOString 1752051590124)),
          1752051590124 + 60 * 1000).
Proof.
  apply (status_snapshot_expires boot 1752051590124 all_up); reflexivity.
Defined.

(** ** The range of the synthetic metrics *)

Lemma Math_floor_times_range (k n : Z) :
  0 <= k < 2 ^ 53 -> 0 < n -> 2 ^ Z.log2 n < n ->
  0 <= Math_floor_times k n <= n - 1.
Proof.
  intros Hk Hn Hpow. unfold Math_floor_times.
  set (p := k * n).
  assert (Hp : 0 <= p <= n * 2 ^ 53 - n) by (unfold p; nia).
  assert (H53 : 0 < 2 ^ 53) by lia.
  destruct (Z.leb_spec (Z.log2 p + 1) 53) as [Hb | Hb].
  - split; [apply Z.div_pos; lia |].
    assert (p / 2 ^ 53 < n); [| lia].
    apply Z.div_lt_upper_bound; lia.
  - set (shift := Z.log2 p + 1 - 53) in *.
    assert (Hshift : 1 <= shift) by (unfold shift; lia).
    assert (Hppos : 0 < p).
    { destruct (Z.eq_dec p 0) as [E|]; [| lia]. rewrite E in Hb. cbn in Hb. lia. }
    assert (Hs : 0 < 2 ^ shift) by (apply Z.pow_pos_nonneg; lia).
    pose proof (Z.div_mod p (2 ^ shift) ltac:(lia)) as Hdm.
    pose proof (Z.mod_pos_bound p (2 ^ shift) Hs) as Hrem.
    assert (Hhalf : 2 ^ shift = 2 * 2 ^ (shift - 1)).
    { replace shift with (Z.succ (shift - 1)) at 1 by lia. apply Z.pow_succ_r. lia. }
    assert (Hln : shift - 1 <= Z.log2 n).
    { assert (Z.log2 p < Z.log2 n + 54); [| unfold shift; lia].
      apply Z.log2_lt_pow2; [exact Hppos |].
      pose proof (Z.log2_spec n Hn) as [_ Hu].
      rewrite Z.pow_add_r by (pose proof (Z.log2_nonneg n); lia).
      replace 54 with (1 + 53) by lia.
      rewrite Z.pow_add_r by lia. change (2 ^ 1) with 2.
      replace (Z.succ (Z.log2 n)) with (Z.log2 n + 1) in Hu by lia.
      rewrite Z.pow_add_r in Hu by (pose proof (Z.log2_nonneg n); lia).
      change (2 ^ 1) with 2 in Hu. nia. }
    assert (Hh : 2 ^ (shift - 1) < n).
    { eapply Z.le_lt_trans; [| exact Hpow]. apply Z.pow_le_mono_r; lia. }
    set (q := p / 2 ^ shift) in *. set (rem := p mod 2 ^ shift) in *.
    set (half := 2 ^ (shift - 1)) in *.
    assert (Hq : 0 <= q) by (apply Z.div_pos; lia).
    assert (HV : 0 <= (if (half <? rem) || (rem =? half) && Z.odd q then q + 1 else q)
                      * 2 ^ shift < n * 2 ^ 53).
    { destruct ((half <? rem) || (rem =? half) && Z.odd q) eqn:E.
      - assert (half <= rem).
        { apply orb_true_iff in E as [E | E]; [apply Z.ltb_lt in E; lia |].
          apply andb_true_iff in E as [E _]. apply Z.eqb_eq in E. lia. }
        split; [nia |]. nia.
      - split; [nia |]. nia. }
    split; [apply Z.div_pos; lia |].
    assert ((if (half <? rem) || (rem =? half) && Z.odd q then q + 1 else q)
            * 2 ^ shift / 2 ^ 53 < n); [| lia].
    apply Z.div_lt_upper_bound; lia.
Qed.

(** X11: the metrics that [GET /api/metrics] computes are always in range,
    whatever [Math.random()] returns: 50 to 249 active users, 5000 to 14999
    requests, 50 to 149 for the average response time; the rounding of the
    floating-point product never reaches the upper end of the scale. *)
Theorem fresh_metrics_in_range (w : World) :
  exists (activeUsers totalRequests averageResponseTime : Z) (w' : World),
    fresh_metrics w =
      (Ok (metricsData activeUsers totalRequests averageResponseTime
             (Clock.toISOString (now w))), w') /\
    50 <= activeUsers <= 249 /\
    5000 <= totalRequests <= 14999 /\
    50 <= averageResponseTime <= 149.
Proof.
  assert (Hr : forall i, 0 <= random w i mod 2 ^ 53 < 2 ^ 53)
    by (intros i; apply Z.mod_pos_bound; lia).
  eexists _, _, _, _. split; [apply fresh_metrics_eq |].
  pose proof (Math_floor_times_range _ 200 (Hr (draws w)) ltac:(lia) ltac:(cbn; lia)).
  pose proof (Math_floor_times_range _ 10000 (Hr (S (draws w))) ltac:(lia) ltac:(cbn; lia)).
  pose proof (Math_floor_times_range _ 100 (Hr (S (S (draws w)))) ltac:(lia) ltac:(cbn; lia)).
  lia.
Qed.

(** ** Errors: what the client sees and what is logged *)

Lemma yields_ret (P : Response -> Prop) (r : Response) : P r -> yields P (mret r).
Proof. intros H w. exact H. Qed.

Lemma yields_throw (P : Response -> Prop) (e : string) : yields P (throw e).
Proof. intros w. exact I. Qed.

Lemma yields_bind {A : Type} (P : Response -> Prop) (c : M A) (f : A -> M Response) :
  (forall a, yields P (f a)) -> yields P (c ≫= f).
Proof.
  intros Hf w. unfold mbind, M_bind.
  destruct (c w) as [[a|e] w']; [apply Hf | exact I].
Qed.

Lemma yields_try_catch (P : Response -> Prop) (c : M Response) (h : string -> M Response) :
  yields P c -> (forall e, yields P (h e)) -> yields P (try_catch c h).
Proof.
  intros Hc Hh w. unfold try_catch. specialize (Hc w).
  destruct (c w) as [[r|e] w']; [exact Hc | apply Hh].
Qed.

Ltac yields_step :=
  lazymatch goal with
  | |- forall _, _ => intros ?
  | |- yields _ (try_catch _ _) => apply yields_try_catch
  | |- yields _ (_ ≫= _) => apply yields_bind
  | |- yields _ (mret _) => apply yields_ret
  | |- yields _ (throw _) => apply yields_throw
  | |- yields _ (if ?b then _ else _) => destruct b
  | |- yields _ (match ?x with _ => _ end) => destruct x
  end.

Ltac yields_steps := repeat yields_step.

(** A [try] block that does not log and answers neither 500 nor 503, with a
    [catch] block that logs the error and answers 500 or the 503 of
    [/health]. *)
Lemma try_catch_error_logged (c : M Response) (h : string -> M Response) (label : string) :
  within same_log c ->
  yields (fun r => status r <> 500 /\ status r <> 503) c ->
  (forall e w, exists r, h e w = (Ok r, add_log (label, e) w) /\
                         (r = internal_server_error \/ r = unhealthy w e)) ->
  error_logged (try_catch c h).
Proof.
  intros Hq Hy Hh w. cbn zeta. unfold run, try_catch.
  specialize (Hq w). specialize (Hy w).
  destruct (c w) as [[r|e] w1]; cbn [snd] in Hq; destruct Hq as [Hl Hn].
  - left. cbn [fst snd]. destruct Hy. repeat split; assumption.
  - right. destruct (Hh e w1) as (r & -> & Hr). cbn [fst snd]. exists label, e.
    world_simpl. rewrite Hl. split; [reflexivity |].
    destruct Hr as [-> | ->]; [now left | right].
    unfold unhealthy. now rewrite Hn.
Qed.

Lemma route_error_logged (req : Request) : error_logged (route req).
Proof.
  unfold route. destruct (method req); repeat case_match;
    try (intros w; left; repeat split; discriminate).
  - apply (try_catch_error_logged _ _ "Health check failed").
    + unfold_routes. within_steps.
    + unfold_routes. yields_steps. split; discriminate.
    + intros e w. eexists. split; [reflexivity | now right].
  - apply (try_catch_error_logged _ _ "Status endpoint error").
    + unfold_routes. within_steps. split; reflexivity.
    + unfold_routes. yields_steps; split; discriminate.
    + intros e w. eexists. split; [reflexivity | now left].
  - apply (try_catch_error_logged _ _ "Metrics endpoint error").
    + unfold_routes. within_steps. split; reflexivity.
    + unfold_routes. yields_steps; split; discriminate.
    + intros e w. eexists. split; [reflexivity | now left].
  - apply (try_catch_error_logged _ _ "Users endpoint error").
    + unfold_routes. within_steps.
    + unfold_routes. yields_steps; split; discriminate.
    + intros e w. eexists. split; [reflexivity | now left].
  - apply (try_catch_error_logged _ _ "Create user error").
    + unfold_routes. within_steps; split; reflexivity.
    + unfold_routes. yields_steps; split; discriminate.
    + intros e w. eexists. split; [reflexivity | now left].
Qed.

Lemma app_error_logged (req : Request) (w : World) :
  let r := fst (app req w) in
  let w' := snd (app req w) in
  (status r <> 500 /\ status r <> 503 /\ log w' = log w) \/
  (exists label e,
     log w' = (log w ++ [(label, e)])%list /\
     (r = internal_server_error \/ r = unhealthy w e)).
Proof.
  unfold app. destruct (under_api (path req)); [| apply route_error_logged].
  unfold limiter.
  destruct (hits w !! ip req) as [[s c]|];
    [destruct (now w <? s + Limit.windowMs); [destruct (c + 1 <=? Limit.max) |] |];
    first [apply (route_error_logged req (set_hits _ w))
          | left; repeat split; discriminate].
Qed.

(** X12: a 500 never carries detail of the failure: whatever the request and
    whatever went wrong in the stores, the body of a 500 is the fixed
    [{error: 'Internal server error'}]. *)
Theorem error_500_is_generic (req : Request) (w : World) :
  status (fst (app req w)) = 500 -> fst (app req w) = internal_server_error.
Proof.
  intros H. destruct (app_error_logged req w) as [(H1 & _) | (label & e & _ & [Hr | Hr])].
  - contradiction.
  - exact Hr.
  - rewrite Hr in H. discriminate H.
Qed.

Lemma error_500_is_generic_witness :
  fst (app (GET_ "/api/users" "203.0.113.7") (at_time 1752051530123 db_down boot)) =
  internal_server_error.
Proof.
  apply (error_500_is_generic (GET_ "/api/users" "203.0.113.7")
           (at_time 1752051530123 db_down boot)).
  reflexivity.
Defined.



(** ** The limiter in front of the routes *)



(** X16: the limiter is mounted on [/api/] only: a request to any other
    path, [/health] among them, is never answered 429 and is not counted,
    however many requests its sender has made. *)
Theorem outside_api_not_limited (req : Request) (w : World) :
  under_api (path req) = false ->
  status (fst (app req w)) <> 429 /\ hits (snd (app req w)) = hits w.
Proof.
  intros H. unfold app. rewrite H.
  destruct (run_route req w) as [Hh Hs]. split; assumption.
Qed.

Lemma outside_api_not_limited_witness :
  let w := at_time 1752051532000 all_up
             (snd (serve (opening :: replicate 100 repeated) boot)) in
  status (fst (app (GET_ "/health" "203.0.113.7") w)) <> 429 /\
  hits (snd (app (GET_ "/health" "203.0.113.7") w)) = hits w.
Proof.
  apply (outside_api_not_limited (GET_ "/health" "203.0.113.7")
           (at_time 1752051532000 all_up
              (snd (serve (opening :: replicate 100 repeated) boot)))).
  reflexivity.
Defined.
